(** * KeepAlive: the cache lifecycle engine of keepalive-for-react

    A shallow embedding of
    [packages/core/src/components/KeepAlive/index.tsx]: the state updaters
    passed to [setCacheNodes] by the layout effect (activation) and by the
    lifecycle API ([refresh], [destroy], [destroyAll], [destroyOther]),
    together with the macro-task queue the destructive operations are
    deferred to.

    Numbers.  [Date.now()] is an integral number of milliseconds and
    [renderCount] counts from [0] by steps of one, so both are integers;
    [max] and the durations of [maxAliveTime] are taken integral too
    ([Z]).  Fractional durations and [NaN] are outside the model. *)

From Stdlib Require Import ZArith Lia Ascii.
From stdpp Require Import base tactics option list strings pretty relations.

Set Default Proof Using "Type".

(** ** JavaScript values used by the component *)

(** An abrupt completion: the only exception the updaters can raise
    themselves is the [TypeError] of [Array.prototype.reduce] on an empty
    array without an initial value. *)
Inductive JsError : Type := TypeError.

Inductive Completion (A : Type) : Type :=
  | Normal (a : A)
  | Throw (e : JsError).
Arguments Normal {A} a.
Arguments Throw {A} e.

#[global] Instance Completion_ret : MRet Completion := λ A a, Normal a.

#[global] Instance Completion_bind : MBind Completion := λ A B k c,
  match c with
  | Normal a => k a
  | Throw e => Throw e
  end.

(** [Array.prototype.reduce(callback)] without an initial value: the first
    element is the initial accumulator; on an empty array it throws. *)
Definition reduce {A : Type} (callback : A → A → A) (arr : list A) : Completion A :=
  match arr with
  | [] => Throw TypeError
  | x :: xs => Normal (foldl callback x xs)
  end.

(** [arr.splice(start, 1)]: a negative [start] counts from the end of the
    array; the element at the resulting position is removed, nothing when
    that position is past the end. *)
Definition splice1 {A : Type} (start : Z) (arr : list A) : list A :=
  let len := Z.of_nat (length arr) in
  let actualStart := if (start <? 0)%Z then Z.max (len + start) 0 else Z.min start len in
  delete (Z.to_nat actualStart) arr.

(** A regular expression is used through [test] only; without the [g] and
    [y] flags [test] is a function of the tested string. *)
Record RegExp : Type := mkRegExp { test : string → bool }.

(** [match: string | RegExp] *)
Inductive MatchPattern : Type :=
  | MatchString (s : string)
  | MatchRegExp (r : RegExp).

(** [interface MaxAliveConfig { match; expire }] *)
Record MaxAliveConfig : Type := mkMaxAliveConfig {
  config_match : MatchPattern;
  expire : Z
}.

(** [maxAliveTime?: number | MaxAliveConfig[]].  The tests [isArr] and
    [isRegExp] of [../../utils] (source not at hand) tell the cases of this
    type and of [MatchPattern] apart; [isNil] is the case [None] of an
    optional value. *)
Inductive MaxAliveTime : Type :=
  | AliveNumber (seconds : Z)
  | AliveConfigs (configs : list MaxAliveConfig).

(** The argument of [destroy]: [string | string[]]. *)
Inductive DestroyArg : Type :=
  | KeyString (s : string)
  | KeyArray (keys : list string).

(** Truthiness of a [number | array] value: every array is truthy (an
    empty one too), a number is truthy unless it is zero. *)
Definition truthy (m : MaxAliveTime) : bool :=
  match m with
  | AliveNumber n => negb (n =? 0)%Z
  | AliveConfigs _ => true
  end.

(** [cacheKey || activeCacheKey] for [cacheKey?: string]: [undefined] and
    the empty string are falsy. *)
Definition or_key (cacheKey activeCacheKey : option string) : option string :=
  match cacheKey with
  | None => activeCacheKey
  | Some s => if bool_decide (s = EmptyString) then activeCacheKey else Some s
  end.

Definition maxAliveTime_prop (maxAliveTime : option MaxAliveTime) : MaxAliveTime :=
  default (AliveNumber 0) maxAliveTime.

(** The callback of [maxAliveTime.find]:
    [isRegExp(item.match) ? item.match.test(activeCacheKey)
                          : item.match === activeCacheKey] *)
Definition config_applies (activeCacheKey : string) (item : MaxAliveConfig) : bool :=
  match config_match item with
  | MatchRegExp r => test r activeCacheKey
  | MatchString s => bool_decide (s = activeCacheKey)
  end.

(** Lines 136-150: the value of [needUpdate] for an entry last active at
    [prev] that is reactivated at [lastActiveTime]. *)
Definition needUpdate (maxAliveTime : MaxAliveTime) (activeCacheKey : string)
    (prev lastActiveTime : Z) : bool :=
  if truthy maxAliveTime then
    match maxAliveTime with
    | AliveConfigs configs =>
        match find (config_applies activeCacheKey) configs with
        | Some config => (prev + expire config * 1000 <? lastActiveTime)%Z
        | None => false
        end
    | AliveNumber seconds => (prev + seconds * 1000 <? lastActiveTime)%Z
    end
  else false.

(** ** The expiration evaluator in the words of the specification *)

(** "the first rule whose [match] tests [cacheKey] (exact equality or
    pattern match)" *)
Definition rule_matches (cacheKey : string) (rule : MaxAliveConfig) : Prop :=
  match config_match rule with
  | MatchString s => cacheKey = s
  | MatchRegExp r => test r cacheKey = true
  end.

#[global] Instance rule_matches_dec cacheKey rule : Decision (rule_matches cacheKey rule).
Proof. unfold rule_matches. destruct (config_match rule); apply _. Defined.

(** "[true] iff [lastActiveTime + d*1000 < now]" *)
Definition elapsed (lastActive now d : Z) : bool :=
  bool_decide (lastActive + d * 1000 < now)%Z.

(** The scalar case: "a duration of zero ... disables expiration
    entirely", any other duration expires by [elapsed]. *)
Definition scalar_case (lastActive now d : Z) : bool :=
  if bool_decide (d = 0%Z) then false else elapsed lastActive now d.

(** "find the first rule whose [match] tests [cacheKey]" *)
Definition first_rule (ttlConfig : option MaxAliveTime) (cacheKey : string)
    : option MaxAliveConfig :=
  match ttlConfig with
  | Some (AliveConfigs rules) => snd <$> list_find (rule_matches cacheKey) rules
  | _ => None
  end.

(** The evaluator of the specification: absent configuration, false; a
    single duration, the scalar case; a rule list, the [expire] of the
    first matching rule applied "the same way as the scalar case", and
    false when no rule matches. *)
Definition shouldExpire_spec (lastActive now : Z) (ttlConfig : option MaxAliveTime)
    (cacheKey : string) : bool :=
  match ttlConfig with
  | None => false
  | Some (AliveNumber d) => scalar_case lastActive now d
  | Some (AliveConfigs rules) =>
      match list_find (rule_matches cacheKey) rules with
      | Some (_, rule) => scalar_case lastActive now (expire rule)
      | None => false
      end
  end.

(** ** The cache store *)

(** [interface CacheNode].  The payload [ele] is opaque to the component:
    it is stored and handed back, never inspected. *)
Record CacheNode (Ele : Type) : Type := mkCacheNode {
  cacheKey : string;
  ele : Ele;
  lastActiveTime : Z;
  renderCount : Z
}.
Arguments mkCacheNode {Ele} cacheKey ele lastActiveTime renderCount.
Arguments cacheKey {Ele} c.
Arguments ele {Ele} c.
Arguments lastActiveTime {Ele} c.
Arguments renderCount {Ele} c.

(** The component state: the [cacheNodes] of [useState] and the macro
    tasks scheduled and not yet run, oldest first.  A task of this
    component is a state updater followed by [resolve()]. *)
Record KeepAliveState (Ele : Type) : Type := mkState {
  cacheNodes : list (CacheNode Ele);
  macroTasks : list (list (CacheNode Ele) → list (CacheNode Ele))
}.
Arguments mkState {Ele} cacheNodes macroTasks.
Arguments cacheNodes {Ele} k.
Arguments macroTasks {Ele} k.

(** One activation: the props the layout effect closes over and the
    reading of [Date.now()] inside its updater. *)
Record Activation (Ele : Type) : Type := mkActivation {
  act_key : string;
  act_children : Ele;
  act_now : Z
}.
Arguments mkActivation {Ele} act_key act_children act_now.
Arguments act_key {Ele} a.
Arguments act_children {Ele} a.
Arguments act_now {Ele} a.

Section Updaters.
Context {Ele : Type}.

#[local] Abbreviation Store := (list (CacheNode Ele)).

(** [item.cacheKey === key] *)
Definition has_key (key : string) (item : CacheNode Ele) : bool :=
  bool_decide (cacheKey item = key).

(** Lines 135-158, the callback of [prevCacheNodes.map] in the update
    branch. *)
Definition update_item (activeCacheKey : string) (children : Ele)
    (maxAliveTime : MaxAliveTime) (now : Z) (item : CacheNode Ele) : CacheNode Ele :=
  if has_key activeCacheKey item then
    let needUpdate := needUpdate maxAliveTime activeCacheKey (lastActiveTime item) now in
    {| cacheKey := cacheKey item;
       ele := children;
       lastActiveTime := now;
       renderCount := if needUpdate then (renderCount item + 1)%Z else renderCount item |}
  else item.

(** Lines 163-165, the callback of [prevCacheNodes.reduce].  The entries
    of the array are pairwise distinct objects, and [indexOf] compares by
    reference: an entry is paired with the position it is stored at, which
    stands for the identity of the object. *)
Definition older (prev cur : nat * CacheNode Ele) : nat * CacheNode Ele :=
  if (lastActiveTime prev.2 <? lastActiveTime cur.2)%Z then prev else cur.

(** [arr.indexOf(node)]: the first position holding the very object
    [node], [-1] when there is none. *)
Definition indexOf (arr : Store) (node : nat * CacheNode Ele) : Z :=
  match list_find (λ stored, stored.1 = node.1) (imap pair arr) with
  | Some (i, _) => Z.of_nat i
  | None => (-1)%Z
  end.

(** Modelled from the spec: [safeStartTransition] of [../../compat]
    (source not at hand): the activation update is "synchronous and complete
    within the current turn", so the callback is simply run. *)
Definition safeStartTransition {A : Type} (callback : A) : A := callback.

(** Lines 162-167: the eviction, which changes [prevCacheNodes] in place
    before it is spread into the new array. *)
Definition evict (max : Z) (prevCacheNodes : Store) : Completion Store :=
  if (Z.of_nat (length prevCacheNodes) >? max)%Z then
    node ← reduce older (imap pair prevCacheNodes);
    mret (splice1 (indexOf prevCacheNodes node) prevCacheNodes)
  else mret prevCacheNodes.

(** Line 168: the entry appended for an unseen key. *)
Definition inserted (activeCacheKey : string) (children : Ele) (now : Z) : CacheNode Ele :=
  {| cacheKey := activeCacheKey; lastActiveTime := now; ele := children; renderCount := 0 |}.

(** Lines 131-169: the updater the layout effect passes to
    [setCacheNodes]. *)
Definition activate (activeCacheKey : string) (children : Ele) (max : Z)
    (maxAliveTime : MaxAliveTime) (now : Z) (prevCacheNodes : Store) : Completion Store :=
  match find (has_key activeCacheKey) prevCacheNodes with
  | Some cacheNode =>
      mret (update_item activeCacheKey children maxAliveTime now <$> prevCacheNodes)
  | None =>
      kept ← evict max prevCacheNodes;
      mret (kept ++ [inserted activeCacheKey children now])
  end.

(** Lines 137 and 161: the arguments [onBeforeActive] is called with by
    one run of the updater, [isFn_onBeforeActive] telling whether the prop
    is a function: one call per entry rewritten by the update branch, one
    call in the insert branch. *)
Definition onBeforeActive_calls (isFn_onBeforeActive : bool) (activeCacheKey : string)
    (prevCacheNodes : Store) : list string :=
  if isFn_onBeforeActive then
    match find (has_key activeCacheKey) prevCacheNodes with
    | Some cacheNode =>
        (λ _, activeCacheKey) <$> filter (λ item, has_key activeCacheKey item = true) prevCacheNodes
    | None => [activeCacheKey]
    end
  else [].

(** [setCacheNodes(updater)] *)
Definition setCacheNodes (updater : Store → Store) (st : KeepAliveState Ele) : KeepAliveState Ele :=
  {| cacheNodes := updater (cacheNodes st); macroTasks := macroTasks st |}.

(** Lines 127-172: the layout effect, run when [activeCacheKey] or
    [children] change. *)
Definition layoutEffect (activeCacheKey : option string) (children : Ele) (max : Z)
    (maxAliveTime : MaxAliveTime) (now : Z) (st : KeepAliveState Ele)
    : Completion (KeepAliveState Ele) :=
  match activeCacheKey with
  | None => mret st
  | Some key =>
      safeStartTransition (
        next ← activate key children max maxAliveTime now (cacheNodes st);
        mret {| cacheNodes := next; macroTasks := macroTasks st |})
  end.

(** A run of activations under fixed [max] and [maxAliveTime]. *)
Fixpoint activations (max : Z) (maxAliveTime : MaxAliveTime)
    (acts : list (Activation Ele)) (store : Store) : Completion Store :=
  match acts with
  | [] => mret store
  | a :: rest =>
      next ← activate (act_key a) (act_children a) max maxAliveTime (act_now a) store;
      activations max maxAliveTime rest next
  end.

(** Modelled from the spec: [macroTask] of [../../utils] (source not at hand):
    "the removal is scheduled on the next macro-task boundary", the task
    queue being first-in-first-out. *)
Definition macroTask (task : Store → Store) (st : KeepAliveState Ele) : KeepAliveState Ele :=
  {| cacheNodes := cacheNodes st; macroTasks := macroTasks st ++ [task] |}.

(** One turn of the task queue: the oldest scheduled task runs. *)
Definition runMacroTask (st : KeepAliveState Ele) : KeepAliveState Ele :=
  match macroTasks st with
  | [] => st
  | task :: rest => {| cacheNodes := task (cacheNodes st); macroTasks := rest |}
  end.

(** Lines 178-183, the updater of [refresh]. *)
Definition refresh_updater (targetCacheKey : option string) (cacheNodes : Store) : Store :=
  (λ item, if bool_decide (Some (cacheKey item) = targetCacheKey)
           then {| cacheKey := cacheKey item; ele := ele item;
                   lastActiveTime := lastActiveTime item;
                   renderCount := (renderCount item + 1)%Z |}
           else item) <$> cacheNodes.

(** Lines 174-187.  [targetCacheKey] is computed inside the updater. *)
Definition refresh (activeCacheKey : option string) (cacheKey : option string)
    (st : KeepAliveState Ele) : KeepAliveState Ele :=
  setCacheNodes (λ cacheNodes,
    let targetCacheKey := or_key cacheKey activeCacheKey in
    refresh_updater targetCacheKey cacheNodes) st.

(** Lines 191-192: [cacheKey || activeCacheKey], then
    [isArr(targetCacheKey) ? targetCacheKey : [targetCacheKey]].  An array
    is truthy, the empty one too; a key that is nil equals no [cacheKey]. *)
Definition destroy_cacheKeys (activeCacheKey : option string) (cacheKey : option DestroyArg)
    : list (option string) :=
  match cacheKey with
  | Some (KeyArray keys) => Some <$> keys
  | Some (KeyString s) => [or_key (Some s) activeCacheKey]
  | None => [activeCacheKey]
  end.

(** Line 196, the updater of [destroy]. *)
Definition destroy_updater (cacheKeys : list (option string)) (cacheNodes : Store) : Store :=
  filter (λ item, Some (cacheKey item) ∉ cacheKeys) cacheNodes.

(** Lines 189-203.  [cacheKeys] is computed when [destroy] is called, the
    store is read when the task runs. *)
Definition destroy (activeCacheKey : option string) (cacheKey : option DestroyArg)
    (st : KeepAliveState Ele) : KeepAliveState Ele :=
  let cacheKeys := destroy_cacheKeys activeCacheKey cacheKey in
  macroTask (destroy_updater cacheKeys) st.

(** Lines 205-212. *)
Definition destroyAll (st : KeepAliveState Ele) : KeepAliveState Ele :=
  macroTask (λ _, []) st.

(** Line 220, the updater of [destroyOther]. *)
Definition destroyOther_updater (targetCacheKey : option string) (cacheNodes : Store) : Store :=
  filter (λ item, Some (cacheKey item) = targetCacheKey) cacheNodes.

(** Lines 214-227. *)
Definition destroyOther (activeCacheKey : option string) (cacheKey : option string)
    (st : KeepAliveState Ele) : KeepAliveState Ele :=
  let targetCacheKey := or_key cacheKey activeCacheKey in
  macroTask (destroyOther_updater targetCacheKey) st.

(** Lines 229-231. *)
Definition getCacheNodes (st : KeepAliveState Ele) : Store := cacheNodes st.

(** The keys of a store, in iteration order. *)
Definition keys (store : Store) : list string := cacheKey <$> store.

End Updaters.

(** ** The eviction rule in the words of the specification *)

Section SpecWords.
Context {Ele : Type}.

(** "the one with the smallest [lastActiveTime] (ties broken by first
    encountered in iteration order)" *)
Definition first_oldest (store : list (CacheNode Ele)) : option (nat * CacheNode Ele) :=
  list_find (λ item, Forall (λ other, lastActiveTime item ≤ lastActiveTime other)%Z store) store.

Definition evict_first_oldest (store : list (CacheNode Ele)) : list (CacheNode Ele) :=
  match first_oldest store with
  | Some (i, _) => delete i store
  | None => store
  end.

(** [n] turns of the task queue. *)
Fixpoint runMacroTasks (n : nat) (st : KeepAliveState Ele) : KeepAliveState Ele :=
  match n with
  | O => st
  | S m => runMacroTasks m (runMacroTask st)
  end.

(** What a user of the component can make happen to its state. *)
Inductive step (st : KeepAliveState Ele) : KeepAliveState Ele → Prop :=
  | step_activate activeCacheKey children max maxAliveTime now st' :
      layoutEffect activeCacheKey children max maxAliveTime now st = Normal st' →
      step st st'
  | step_refresh activeCacheKey cacheKey :
      step st (refresh activeCacheKey cacheKey st)
  | step_destroy activeCacheKey cacheKey :
      step st (destroy activeCacheKey cacheKey st)
  | step_destroyAll :
      step st (destroyAll st)
  | step_destroyOther activeCacheKey cacheKey :
      step st (destroyOther activeCacheKey cacheKey st)
  | step_macroTask :
      step st (runMacroTask st).

(** The states the component reaches from a given store with an empty
    task queue. *)
Inductive reachable (store : list (CacheNode Ele)) : KeepAliveState Ele → Prop :=
  | reachable_init : reachable store (mkState store [])
  | reachable_step st st' : reachable store st → step st st' → reachable store st'.

(** A scheduled task that keeps the keys of a store pairwise distinct. *)
Definition keeps_keys_unique (task : list (CacheNode Ele) → list (CacheNode Ele)) : Prop :=
  ∀ store, NoDup (keys store) → NoDup (keys (task store)).

(** The invariant of the component state: no two entries share a key, and
    no task waiting in the queue can make two entries share one. *)
Definition unique_keys (st : KeepAliveState Ele) : Prop :=
  NoDup (keys (cacheNodes st)) ∧ Forall keeps_keys_unique (macroTasks st).

End SpecWords.

(** ** Rendering *)

(** What one element of [cacheNodes.map] in the returned fragment carries:
    the React [key] of the [CacheComponentProvider], the [active] flag
    given to the provider and to the [CacheComponent], and the [cacheKey],
    [renderCount] and children given to the [CacheComponent]. *)
Record Rendered (Ele : Type) : Type := mkRendered {
  react_key : string;
  active : bool;
  rendered_cacheKey : string;
  rendered_renderCount : Z;
  rendered_children : Ele
}.
Arguments mkRendered {Ele} react_key active rendered_cacheKey rendered_renderCount rendered_children.
Arguments react_key {Ele} r.
Arguments active {Ele} r.
Arguments rendered_cacheKey {Ele} r.
Arguments rendered_renderCount {Ele} r.
Arguments rendered_children {Ele} r.

(** The component state with the arrays as the objects they are: every
    array the component has held as its state, at the position that
    stands for its identity, and the reference [useState] holds now.  A
    caller of [getCacheNodes] keeps such a reference. *)
Record HeapState (Ele : Type) : Type := mkHeap {
  arrays : list (list (CacheNode Ele));
  state_ref : nat;
  pending : list (list (CacheNode Ele) → list (CacheNode Ele))
}.
Arguments mkHeap {Ele} arrays state_ref pending.
Arguments arrays {Ele} h.
Arguments state_ref {Ele} h.
Arguments pending {Ele} h.

Section Rendering.
Context {Ele : Type}.

#[local] Abbreviation Store := (list (CacheNode Ele)).

(** Line 248: the template literal [`${cacheKey}-${renderCount}`]; an
    integer is printed in decimal, with a leading minus sign when it is
    negative (JavaScript does so below [1e21], far above any count of
    remounts). *)
Definition provider_key (item : CacheNode Ele) : string :=
  cacheKey item +:+ "-" +:+ pretty (renderCount item).

(** Lines 244-274: the elements rendered after the container [div]. *)
Definition render (activeCacheKey : option string) (cacheNodes : Store) : list (Rendered Ele) :=
  (λ item,
     {| react_key := provider_key item;
        active := bool_decide (activeCacheKey = Some (cacheKey item));
        rendered_cacheKey := cacheKey item;
        rendered_renderCount := renderCount item;
        rendered_children := ele item |}) <$> cacheNodes.

(** A string without the character [-]. *)
Fixpoint dash_free (s : string) : Prop :=
  match s with
  | EmptyString => True
  | String c rest => c ≠ "-"%char ∧ dash_free rest
  end.

(** *** The state arrays as shared objects *)

(** The array a reference denotes. *)
Definition deref (h : HeapState Ele) (ref : nat) : option Store := arrays h !! ref.

(** The array [useState] holds. *)
Definition current (h : HeapState Ele) : Store := default [] (deref h (state_ref h)).

(** [setCacheNodes] with a freshly built array: the array becomes a new
    object and the state refers to it. *)
Definition install (arr : Store) (h : HeapState Ele) : HeapState Ele :=
  {| arrays := arrays h ++ [arr]; state_ref := length (arrays h); pending := pending h |}.

(** [prevCacheNodes.splice(start, 1)]: the array the state refers to is
    changed where it is. *)
Definition splice_state (start : Z) (h : HeapState Ele) : HeapState Ele :=
  {| arrays := <[state_ref h := splice1 start (current h)]> (arrays h);
     state_ref := state_ref h; pending := pending h |}.

(** Lines 131-169 on the arrays as objects: [map] and the spread build
    new arrays, [splice] changes [prevCacheNodes] itself. *)
Definition activate_heap (activeCacheKey : string) (children : Ele) (max : Z)
    (maxAliveTime : MaxAliveTime) (now : Z) (h : HeapState Ele) : Completion (HeapState Ele) :=
  let prevCacheNodes := current h in
  match find (has_key activeCacheKey) prevCacheNodes with
  | Some cacheNode =>
      mret (install (update_item activeCacheKey children maxAliveTime now <$> prevCacheNodes) h)
  | None =>
      h' ← (if (Z.of_nat (length prevCacheNodes) >? max)%Z then
              node ← reduce older (imap pair prevCacheNodes);
              mret (splice_state (indexOf prevCacheNodes node) h)
            else mret h);
      mret (install (current h' ++ [inserted activeCacheKey children now]) h')
  end.

(** [refresh], whose [map] builds a new array. *)
Definition refresh_heap (activeCacheKey cacheKey : option string) (h : HeapState Ele)
    : HeapState Ele :=
  install (refresh_updater (or_key cacheKey activeCacheKey) (current h)) h.

(** The tasks of [destroy], [destroyAll] and [destroyOther]: their
    updaters build new arrays ([filter] and the spread, the literal
    [[]]). *)
Definition schedule_heap (task : Store → Store) (h : HeapState Ele) : HeapState Ele :=
  {| arrays := arrays h; state_ref := state_ref h; pending := pending h ++ [task] |}.

Definition destroy_heap (activeCacheKey : option string) (cacheKey : option DestroyArg)
    (h : HeapState Ele) : HeapState Ele :=
  schedule_heap (destroy_updater (destroy_cacheKeys activeCacheKey cacheKey)) h.

Definition destroyAll_heap (h : HeapState Ele) : HeapState Ele :=
  schedule_heap (λ _, []) h.

Definition destroyOther_heap (activeCacheKey cacheKey : option string) (h : HeapState Ele)
    : HeapState Ele :=
  schedule_heap (destroyOther_updater (or_key cacheKey activeCacheKey)) h.

Definition runMacroTask_heap (h : HeapState Ele) : HeapState Ele :=
  match pending h with
  | [] => h
  | task :: rest =>
      install (task (current h))
        {| arrays := arrays h; state_ref := state_ref h; pending := rest |}
  end.

(** Lines 229-231: [getCacheNodes] returns the state array itself. *)
Definition getCacheNodes_heap (h : HeapState Ele) : nat := state_ref h.

(** The state of the component without the identities of its arrays. *)
Definition forget (h : HeapState Ele) : KeepAliveState Ele :=
  {| cacheNodes := current h; macroTasks := pending h |}.

(** *** Runs of the component under fixed props *)

(** What a user can make happen to a component rendered with capacity
    [max]. *)
Inductive step_under (max : Z) (st : KeepAliveState Ele) : KeepAliveState Ele → Prop :=
  | under_activate activeCacheKey children maxAliveTime now st' :
      layoutEffect activeCacheKey children max maxAliveTime now st = Normal st' →
      step_under max st st'
  | under_refresh activeCacheKey cacheKey :
      step_under max st (refresh activeCacheKey cacheKey st)
  | under_destroy activeCacheKey cacheKey :
      step_under max st (destroy activeCacheKey cacheKey st)
  | under_destroyAll :
      step_under max st (destroyAll st)
  | under_destroyOther activeCacheKey cacheKey :
      step_under max st (destroyOther activeCacheKey cacheKey st)
  | under_macroTask :
      step_under max st (runMacroTask st).

(** A scheduled task that returns some of the entries it is given, as
    they are and in their order. *)
Definition shrinks (task : Store → Store) : Prop :=
  ∀ store, task store `sublist_of` store.

(** The entries of a run of activations that only inserts. *)
Definition entries_of (acts : list (Activation Ele)) : Store :=
  (λ a, inserted (act_key a) (act_children a) (act_now a)) <$> acts.

(** The last [n] elements of a list. *)
Definition last_n {A : Type} (n : nat) (l : list A) : list A :=
  drop (length l - n) l.

(** Clock readings that go up strictly along a run of activations. *)
Definition clock_increases (acts : list (Activation Ele)) : Prop :=
  ∀ i j a b, acts !! i = Some a → acts !! j = Some b → i < j → (act_now a < act_now b)%Z.

End Rendering.

(** ** Concrete stores used in the examples *)

Definition entry (key : string) (t : Z) (n : Z) : CacheNode string :=
  mkCacheNode key (String.append "<" (String.append key "/>")) t n.

(** Three entries, the two oldest activated in the same millisecond. *)
Definition tie_store : list (CacheNode string) :=
  [entry "a" 5 0; entry "b" 5 0; entry "c" 7 0].

(** A store in which the empty string is a key, as it is once the empty
    string has been the active key. *)
Definition empty_key_store : list (CacheNode string) :=
  [entry EmptyString 1 0; entry "x" 10 0; entry "y" 20 0].

(** A store holding the active key ["x"] and one other key. *)
Definition xy_store : list (CacheNode string) :=
  [entry "x" 10 0; entry "y" 20 0].

(** The spec's scenario: [max = 2], keys ["a"], ["b"], ["c"], ["d"]. *)
Definition abcd : list (Activation string) :=
  [mkActivation "a" "<a/>" 10; mkActivation "b" "<b/>" 20;
   mkActivation "c" "<c/>" 30; mkActivation "d" "<d/>" 40]%Z.

(** The spec's scenario: a rule list with one five-second rule for ["x"]. *)
Definition x_rule (seconds : Z) : MaxAliveTime :=
  AliveConfigs [mkMaxAliveConfig (MatchString "x") seconds].

(** * Properties *)

(** Closed decidable side conditions are settled by evaluation. *)
Ltac by_evaluation := apply (bool_decide_unpack _); vm_compute; exact I.

Section Facts.
Context {Ele : Type}.
Implicit Types (store : list (CacheNode Ele)) (item : CacheNode Ele) (key : string).

Lemma find_has_key_None store key :
  find (has_key key) store = None ↔ key ∉ keys store.
Proof.
  unfold keys. induction store as [|item store IH]; simpl.
  - split; [intros _; apply not_elem_of_nil | done].
  - unfold has_key at 1. case_bool_decide as Hk.
    + split; [done | intros Hnot; exfalso; apply Hnot; rewrite Hk; left].
    + rewrite IH, not_elem_of_cons. split; [intros ?; split; [congruence|done] | by intros [_ ?]].
Qed.

Lemma find_has_key_Some store key :
  key ∈ keys store → ∃ item, find (has_key key) store = Some item.
Proof.
  intros Hin. destruct (find (has_key key) store) eqn:E; [eauto|].
  apply find_has_key_None in E. done.
Qed.

(** The accumulator of the eviction [reduce]: an element of the array, no
    younger than any element, and strictly older than every element after
    it. *)
Lemma foldl_older (x : nat * CacheNode Ele) xs :
  let r := foldl older x xs in
  ∃ a, (x :: xs) !! a = Some r
       ∧ (∀ b p, (x :: xs) !! b = Some p → (lastActiveTime r.2 ≤ lastActiveTime p.2)%Z)
       ∧ (∀ b p, (x :: xs) !! b = Some p → a < b → (lastActiveTime r.2 < lastActiveTime p.2)%Z).
Proof.
  induction xs as [|y ys IH] using rev_ind; simpl.
  - exists 0. split_and!; [done| |].
    + intros [|b] p Hp; [|done]. injection Hp as <-. lia.
    + intros [|b] p Hp ?; [lia|done].
  - rewrite foldl_app. simpl. destruct IH as (a & Ha & Hmin & Hlater).
    set (r := foldl older x ys) in *.
    assert (Hlen : a < length (x :: ys)) by (by eapply lookup_lt_Some).
    unfold older. destruct (Z.ltb_spec (lastActiveTime r.2) (lastActiveTime y.2)) as [Hlt|Hge].
    + exists a. split_and!.
      * change (x :: ys ++ [y]) with ((x :: ys) ++ [y]). by rewrite lookup_app_l.
      * intros b p. change (x :: ys ++ [y]) with ((x :: ys) ++ [y]).
        rewrite lookup_app_Some. intros [Hp|[_ Hp]]; [eauto|].
        apply list_lookup_singleton_Some in Hp as [_ <-]. lia.
      * intros b p. change (x :: ys ++ [y]) with ((x :: ys) ++ [y]).
        rewrite lookup_app_Some. intros [Hp|[_ Hp]] ?; [eauto|].
        apply list_lookup_singleton_Some in Hp as [_ <-]. lia.
    + exists (length (x :: ys)). split_and!.
      * change (x :: ys ++ [y]) with ((x :: ys) ++ [y]).
        rewrite lookup_app_r by lia. by rewrite Nat.sub_diag.
      * intros b p. change (x :: ys ++ [y]) with ((x :: ys) ++ [y]).
        rewrite lookup_app_Some. intros [Hp|[_ Hp]].
        -- specialize (Hmin b p Hp). lia.
        -- apply list_lookup_singleton_Some in Hp as [_ <-]. lia.
      * intros b p. change (x :: ys ++ [y]) with ((x :: ys) ++ [y]).
        rewrite lookup_app_Some. intros [Hp|[Hb Hp]] ?.
        -- apply lookup_lt_Some in Hp. lia.
        -- apply list_lookup_singleton_Some in Hp as [? <-]. lia.
Qed.

Lemma splice1_lookup {A : Type} (i : nat) (arr : list A) :
  i < length arr → splice1 (Z.of_nat i) arr = delete i arr.
Proof.
  intros Hi. unfold splice1. destruct (Z.ltb_spec (Z.of_nat i) 0); [lia|].
  f_equal. lia.
Qed.

Lemma splice1_sublist {A : Type} (start : Z) (arr : list A) :
  splice1 start arr `sublist_of` arr.
Proof. unfold splice1. apply sublist_delete. Qed.

(** [indexOf] finds an entry at the position it was read from. *)
Lemma indexOf_lookup store i item :
  store !! i = Some item → indexOf store (i, item) = Z.of_nat i.
Proof.
  intros Hi. unfold indexOf.
  assert (list_find (λ stored : nat * CacheNode Ele, stored.1 = (i, item).1) (imap pair store)
          = Some (i, (i, item))) as ->; [|done].
  apply list_find_Some. split_and!; [by rewrite list_lookup_imap, Hi|done|].
  intros j stored. rewrite list_lookup_imap.
  destruct (store !! j); simpl; [|done]. intros [= <-] ?. simpl. lia.
Qed.

Lemma evict_within max store :
  (Z.of_nat (length store) ≤ max)%Z → evict max store = Normal store.
Proof.
  intros Hle. unfold evict.
  destruct (Z.gtb_spec (Z.of_nat (length store)) max); [lia|done].
Qed.

(** When the store is over capacity, the entry taken out is the oldest
    one, and among equally old ones the last in iteration order. *)
Lemma evict_overflow max store :
  (max < Z.of_nat (length store))%Z → store ≠ [] →
  ∃ i item, store !! i = Some item
    ∧ (∀ j other, store !! j = Some other → (lastActiveTime item ≤ lastActiveTime other)%Z)
    ∧ (∀ j other, store !! j = Some other → i < j → (lastActiveTime item < lastActiveTime other)%Z)
    ∧ evict max store = Normal (delete i store).
Proof.
  intros Hgt Hne. unfold evict.
  destruct (Z.gtb_spec (Z.of_nat (length store)) max); [|lia].
  destruct (imap pair store) as [|x xs] eqn:E.
  { destruct store; [done|discriminate]. }
  simpl. destruct (foldl_older x xs) as (a & Ha & Hmin & Hlater).
  rewrite <- E in Ha, Hmin, Hlater.
  rewrite list_lookup_imap in Ha.
  destruct (store !! a) as [item|] eqn:Hitem; [|done]. simpl in Ha.
  injection Ha as Ha. rewrite <- Ha in Hmin, Hlater.
  exists a, item. rewrite <- Ha. simpl. split_and!; [done| | |].
  3: { rewrite (indexOf_lookup store a item Hitem), splice1_lookup; [done|].
       by eapply lookup_lt_Some. }
  - intros j other Hj. apply (Hmin j (j, other)).
    by rewrite list_lookup_imap, Hj.
  - intros j other Hj ?. apply (Hlater j (j, other)); [|done].
    by rewrite list_lookup_imap, Hj.
Qed.

Lemma config_applies_matches key rule :
  config_applies key rule = true ↔ rule_matches key rule.
Proof.
  unfold config_applies, rule_matches. destruct (config_match rule) as [s|r]; [|done].
  rewrite bool_decide_eq_true. split; congruence.
Qed.

Lemma activate_unseen key children max maxAliveTime now store :
  key ∉ keys store →
  activate key children max maxAliveTime now store
  = (kept ← evict max store; mret (kept ++ [inserted key children now])).
Proof. intros Hk. unfold activate. by apply find_has_key_None in Hk as ->. Qed.

Lemma activate_seen key children max maxAliveTime now store :
  key ∈ keys store →
  activate key children max maxAliveTime now store
  = Normal (update_item key children maxAliveTime now <$> store).
Proof. intros Hk. unfold activate. by apply find_has_key_Some in Hk as [item ->]. Qed.

(** Below capacity, or exactly at it, an unseen key is appended and
    nothing leaves the store. *)
Lemma activate_unseen_within key children max maxAliveTime now store :
  key ∉ keys store → (Z.of_nat (length store) ≤ max)%Z →
  activate key children max maxAliveTime now store
  = Normal (store ++ [inserted key children now]).
Proof. intros Hk Hle. by rewrite activate_unseen, evict_within. Qed.

(** Over capacity, one entry leaves and the unseen key is appended. *)
Lemma activate_unseen_overflow key children max maxAliveTime now store :
  key ∉ keys store → (max < Z.of_nat (length store))%Z → store ≠ [] →
  ∃ i item, store !! i = Some item
    ∧ (∀ j other, store !! j = Some other → (lastActiveTime item ≤ lastActiveTime other)%Z)
    ∧ (∀ j other, store !! j = Some other → i < j → (lastActiveTime item < lastActiveTime other)%Z)
    ∧ activate key children max maxAliveTime now store
      = Normal (delete i store ++ [inserted key children now]).
Proof.
  intros Hk Hgt Hne.
  destruct (evict_overflow max store Hgt Hne) as (i & item & Hi & Hmin & Hlater & Hev).
  exists i, item. split_and!; [done..|]. by rewrite activate_unseen, Hev.
Qed.

(** With a capacity that is not negative the updater never throws. *)
Lemma activate_total key children max maxAliveTime now store :
  (0 ≤ max)%Z → ∃ store', activate key children max maxAliveTime now store = Normal store'.
Proof.
  intros Hmax. destruct (decide (key ∈ keys store)) as [Hin|Hout].
  - rewrite activate_seen by done. eauto.
  - destruct (decide (Z.of_nat (length store) ≤ max)%Z) as [Hle|Hgt].
    + rewrite activate_unseen_within by done. eauto.
    + destruct (activate_unseen_overflow key children max maxAliveTime now store)
        as (i & item & _ & _ & _ & ->); [done|lia| |eauto].
      intros ->. simpl in Hgt. lia.
Qed.

Lemma keys_app store1 store2 : keys (store1 ++ store2) = keys store1 ++ keys store2.
Proof. unfold keys. apply fmap_app. Qed.

Lemma keys_delete i store : keys (delete i store) = delete i (keys store).
Proof. unfold keys. apply list_fmap_delete. Qed.

Lemma elem_of_keys_delete key i store : key ∈ keys (delete i store) → key ∈ keys store.
Proof. rewrite keys_delete. intros Hin. eapply elem_of_sublist; [done|apply sublist_delete]. Qed.

Lemma NoDup_keys_snoc store key children now :
  NoDup (keys store) → key ∉ keys store → NoDup (keys (store ++ [inserted key children now])).
Proof.
  intros Hnd Hk. rewrite keys_app. apply NoDup_app. split_and!; [done| |apply NoDup_singleton].
  intros k Hin Hin'. apply list_elem_of_singleton in Hin'. simpl in Hin'. by subst.
Qed.

(** The size and the keys of the store after the insertion of an unseen
    key under capacity [N]. *)
Lemma activate_unseen_size (N : nat) key children maxAliveTime now store :
  key ∉ keys store →
  ∃ store', activate key children (Z.of_nat N) maxAliveTime now store = Normal store'
    ∧ length store' = (if decide (length store ≤ N) then length store + 1 else length store)
    ∧ (∀ k, k ∈ keys store' → k ∈ keys store ∨ k = key).
Proof.
  intros Hk. case_decide as Hsize.
  - exists (store ++ [inserted key children now]). split_and!.
    + apply activate_unseen_within; [done|lia].
    + rewrite length_app. simpl. lia.
    + intros k. rewrite keys_app, elem_of_app. intros [?|Hin]; [by left|right].
      by apply list_elem_of_singleton in Hin.
  - destruct (activate_unseen_overflow key children (Z.of_nat N) maxAliveTime now store)
      as (i & item & Hi & _ & _ & Heq); [done|lia| |].
    { intros ->. simpl in Hsize. lia. }
    exists (delete i store ++ [inserted key children now]). split_and!; [done| |].
    + rewrite length_app, length_delete by eauto. simpl.
      apply lookup_lt_Some in Hi. lia.
    + intros k. rewrite keys_app, elem_of_app. intros [Hin|Hin].
      * left. by eapply elem_of_keys_delete.
      * right. by apply list_elem_of_singleton in Hin.
Qed.

(** A run of activations whose keys are pairwise distinct and unseen only
    inserts: the store grows by one per activation up to [N + 1] entries
    and keeps its size from there on. *)
Lemma activations_distinct (N : nat) maxAliveTime (acts : list (Activation Ele)) store :
  NoDup (act_key <$> acts) → (∀ a, a ∈ acts → act_key a ∉ keys store) →
  ∃ store', activations (Z.of_nat N) maxAliveTime acts store = Normal store'
    ∧ length store' = (length store + length acts) `min` (length store `max` (N + 1)).
Proof.
  revert store. induction acts as [|a rest IH]; intros store Hnd Hfresh; simpl.
  - exists store. split; [done|lia].
  - apply NoDup_cons in Hnd as [Ha Hnd].
    destruct (activate_unseen_size N (act_key a) (act_children a) maxAliveTime (act_now a) store)
      as (store1 & -> & Hlen & Hkeys).
    { apply Hfresh. left. }
    simpl. destruct (IH store1 Hnd) as (store' & -> & Hlen').
    { intros b Hb Hin. apply Hkeys in Hin as [Hin| Heq].
      - eapply Hfresh; [right; exact Hb|done].
      - apply Ha. rewrite <- Heq. apply list_elem_of_fmap. eauto. }
    exists store'. split; [done|]. rewrite Hlen', Hlen. case_decide; lia.
Qed.

(** *** The expiration evaluation *)

(** What the code evaluates, case by case: a number goes through the
    scalar case; a rule list compares with the [expire] of the first rule
    that applies, whatever that [expire] is. *)
Lemma needUpdate_cases (maxAliveTime : option MaxAliveTime) key (prev now : Z) :
  needUpdate (maxAliveTime_prop maxAliveTime) key prev now
  = match maxAliveTime with
    | None => false
    | Some (AliveNumber d) => scalar_case prev now d
    | Some (AliveConfigs rules) =>
        match list_find (rule_matches key) rules with
        | Some (_, rule) => elapsed prev now (expire rule)
        | None => false
        end
    end.
Proof.
  destruct maxAliveTime as [[d|rules]|]; simpl; [| |done].
  - unfold needUpdate, scalar_case. simpl. case_bool_decide as Hd.
    + subst d. done.
    + rewrite (proj2 (Z.eqb_neq d 0)) by done. simpl. unfold elapsed.
      destruct (Z.ltb_spec (prev + d * 1000) now).
      * by rewrite bool_decide_eq_true_2.
      * rewrite bool_decide_eq_false_2; [done|lia].
  - unfold needUpdate. simpl.
    induction rules as [|rule rules IH]; [done|].
    destruct (decide (rule_matches key rule)) as [Hm|Hm].
    + assert (config_applies key rule = true) as Hc by (by apply config_applies_matches).
      simpl. rewrite Hc, decide_True by done. unfold elapsed.
      destruct (Z.ltb_spec (prev + expire rule * 1000) now).
      * by rewrite bool_decide_eq_true_2.
      * rewrite bool_decide_eq_false_2; [done|lia].
    + assert (config_applies key rule = false) as Hc.
      { apply not_true_is_false. by rewrite config_applies_matches. }
      simpl. rewrite Hc, decide_False by done. rewrite IH.
      destruct (list_find (rule_matches key) rules) as [[? ?]|]; done.
Qed.

(** *** The task queue *)

Lemma runMacroTasks_app tasks rest store :
  runMacroTasks (length tasks) (mkState store (tasks ++ rest))
  = mkState (foldl (λ acc task, task acc) store tasks) rest.
Proof.
  revert store. induction tasks as [|task tasks IH]; intros store; [done|].
  simpl. unfold runMacroTask at 1. simpl. apply IH.
Qed.

(** A task scheduled now runs after the tasks that were waiting, on the
    store they leave. *)
Lemma scheduled_task_runs task (st : KeepAliveState Ele) :
  runMacroTask (runMacroTasks (length (macroTasks st)) (macroTask task st))
  = mkState (task (cacheNodes (runMacroTasks (length (macroTasks st)) (macroTask task st)))) [].
Proof.
  destruct st as [store tasks]. unfold macroTask. simpl.
  rewrite runMacroTasks_app. reflexivity.
Qed.

(** *** Filters on keys *)

Lemma filter_nothing (P : CacheNode Ele → Prop) `{!∀ item, Decision (P item)} store :
  (∀ item, item ∈ store → P item) → filter P store = store.
Proof.
  induction store as [|item store IH]; intros HP; [done|].
  rewrite filter_cons_True by (apply HP; left).
  f_equal. apply IH. intros other Hin. apply HP. by right.
Qed.

Lemma filter_everything (P : CacheNode Ele → Prop) `{!∀ item, Decision (P item)} store :
  (∀ item, item ∈ store → ¬ P item) → filter P store = [].
Proof.
  induction store as [|item store IH]; intros HP; [done|].
  rewrite filter_cons_False by (apply HP; left).
  apply IH. intros other Hin. apply HP. by right.
Qed.

(** With pairwise distinct keys, the entries of one key are one entry. *)
Lemma filter_unique_key (P : CacheNode Ele → Prop) `{!∀ item, Decision (P item)}
    key item store :
  (∀ other, P other ↔ cacheKey other = key) →
  NoDup (keys store) → item ∈ store → cacheKey item = key →
  filter P store = [item].
Proof.
  intros HP. induction store as [|first store IH]; intros Hnd Hin Hkey.
  - by apply elem_of_nil in Hin.
  - unfold keys in Hnd. simpl in Hnd. apply NoDup_cons in Hnd as [Hfirst Hnd].
    apply elem_of_cons in Hin as [<-|Hin].
    + rewrite filter_cons_True by (by apply HP). f_equal.
      apply filter_everything. intros other Hother Heq%HP.
      apply Hfirst. rewrite Hkey, <- Heq. apply list_elem_of_fmap. eauto.
    + rewrite filter_cons_False; [by apply IH|].
      intros Heq%HP. apply Hfirst. rewrite Heq, <- Hkey.
      apply list_elem_of_fmap. eauto.
Qed.

(** With pairwise distinct keys [onBeforeActive] is called exactly once per
    activation. *)
Lemma onBeforeActive_called_once key store :
  NoDup (keys store) → onBeforeActive_calls true key store = [key].
Proof.
  intros Hnd. unfold onBeforeActive_calls.
  destruct (find (has_key key) store) as [item|] eqn:E; [|done].
  apply find_some in E as [Hin Hkey]. apply list_elem_of_In in Hin.
  unfold has_key in Hkey. apply bool_decide_eq_true in Hkey.
  rewrite (filter_unique_key _ key item); [done| |done..].
  intros other. unfold has_key. by rewrite bool_decide_eq_true.
Qed.

Lemma NoDup_keys_filter (P : CacheNode Ele → Prop) `{!∀ item, Decision (P item)} store :
  NoDup (keys store) → NoDup (keys (filter P store)).
Proof.
  intros Hnd. eapply sublist_NoDup; [exact Hnd|].
  unfold keys. apply fmap_sublist, sublist_filter.
Qed.

(** *** Key uniqueness, operation by operation *)

Lemma keys_update_item key children maxAliveTime now store :
  keys (update_item key children maxAliveTime now <$> store) = keys store.
Proof.
  unfold keys. rewrite <- list_fmap_compose. apply list_fmap_ext.
  intros i item _. simpl. unfold update_item. by destruct (has_key key item).
Qed.

Lemma keys_refresh_updater target store : keys (refresh_updater target store) = keys store.
Proof.
  unfold keys, refresh_updater. rewrite <- list_fmap_compose. apply list_fmap_ext.
  intros i item _. simpl. by case_bool_decide.
Qed.

Lemma activate_keeps_keys_unique key children max maxAliveTime now store store' :
  NoDup (keys store) →
  activate key children max maxAliveTime now store = Normal store' →
  NoDup (keys store').
Proof.
  intros Hnd. destruct (decide (key ∈ keys store)) as [Hin|Hout].
  - rewrite activate_seen by done. intros [= <-]. by rewrite keys_update_item.
  - rewrite activate_unseen by done. unfold evict.
    destruct (Z.gtb_spec (Z.of_nat (length store)) max).
    + destruct (reduce older (imap pair store)) as [node|e]; simpl; [|done].
      intros [= <-]. rewrite keys_app.
      assert (Hsub : keys (splice1 (indexOf store node) store) `sublist_of` keys store).
      { unfold keys. apply fmap_sublist, splice1_sublist. }
      apply NoDup_app. split_and!.
      * by eapply sublist_NoDup.
      * intros k Hk Hk'. apply list_elem_of_singleton in Hk'. simpl in Hk'. subst k.
        apply Hout. by eapply elem_of_sublist.
      * apply NoDup_singleton.
    + simpl. intros [= <-]. by apply NoDup_keys_snoc.
Qed.

Lemma step_keeps_unique_keys (st st' : KeepAliveState Ele) :
  unique_keys st → step st st' → unique_keys st'.
Proof.
  intros [Hnd Htasks] Hstep. destruct Hstep as
    [active children max maxAliveTime now st' Heff | active key | active key | | active key | ].
  - unfold layoutEffect, mret, mbind, Completion_ret, Completion_bind in Heff.
    destruct active as [key|]; [|injection Heff as <-; by split].
    destruct (activate key children max maxAliveTime now (cacheNodes st)) as [next|e] eqn:E;
      [|done].
    injection Heff as <-. split; [|done]. simpl. by eapply activate_keeps_keys_unique.
  - split; [|done]. simpl. by rewrite keys_refresh_updater.
  - split; [done|]. simpl. apply Forall_app. split; [done|].
    apply Forall_singleton. intros store Hs. by apply NoDup_keys_filter.
  - split; [done|]. simpl. apply Forall_app. split; [done|].
    apply Forall_singleton. intros store Hs. apply NoDup_nil_2.
  - split; [done|]. simpl. apply Forall_app. split; [done|].
    apply Forall_singleton. intros store Hs. by apply NoDup_keys_filter.
  - unfold runMacroTask. destruct (macroTasks st) as [|task rest] eqn:E.
    { split; [done|]. rewrite E. apply Forall_nil_2. }
    apply Forall_cons in Htasks as [Htask Hrest]. split; [|done]. simpl. by apply Htask.
Qed.

Lemma reachable_unique_keys store (st : KeepAliveState Ele) :
  NoDup (keys store) → reachable store st → unique_keys st.
Proof.
  intros Hnd Hreach. induction Hreach as [|st st' _ IH Hstep].
  - split; [done|apply Forall_nil_2].
  - by eapply step_keeps_unique_keys.
Qed.

End Facts.

Section Claims.
Context {Ele : Type}.
Implicit Types (store : list (CacheNode Ele)) (item : CacheNode Ele) (key : string).

(** C1.  Under capacity [max = N], the insertion of an unseen key leaves
    every entry in place while the store holds at most [N] entries and
    takes one entry out only when it holds strictly more than [N]; hence,
    along any run of activations with pairwise distinct keys from the
    empty store, the store holds [n] entries after the first [n]
    activations while [n ≤ N], and exactly [N + 1] entries after every
    later one: it never drops back to [N]. *)
Theorem size_stabilizes_past_capacity (N : nat) maxAliveTime (acts : list (Activation Ele)) :
  NoDup (act_key <$> acts) →
  (∀ store key children now, key ∉ keys store →
     (length store ≤ N →
        activate key children (Z.of_nat N) maxAliveTime now store
        = Normal (store ++ [inserted key children now]))
     ∧ (N < length store →
        ∃ i, i < length store
          ∧ activate key children (Z.of_nat N) maxAliveTime now store
            = Normal (delete i store ++ [inserted key children now])))
  ∧ (∀ n, n ≤ length acts →
       ∃ store, activations (Z.of_nat N) maxAliveTime (take n acts) [] = Normal store
         ∧ length store = (if decide (n ≤ N) then n else N + 1)).
Proof.
  intros Hnd. split.
  - intros store key children now Hk. split.
    + intros Hle. apply activate_unseen_within; [done|lia].
    + intros Hgt.
      destruct (activate_unseen_overflow key children (Z.of_nat N) maxAliveTime now store)
        as (i & item & Hi & _ & _ & Heq); [done|lia| |].
      { intros ->. simpl in Hgt. lia. }
      exists i. split; [by eapply lookup_lt_Some|done].
  - intros n Hn.
    destruct (activations_distinct N maxAliveTime (take n acts) []) as (store & Hrun & Hlen).
    + rewrite fmap_take. eapply sublist_NoDup; [done|apply sublist_take].
    + intros a _. apply not_elem_of_nil.
    + exists store. split; [done|]. rewrite Hlen, length_take. simpl. case_decide; lia.
Qed.

(** C2 (amended).  Whenever eviction runs on a non-empty store (size
    before insertion strictly greater than [max]), exactly one entry is
    removed: an entry with the smallest [lastActiveTime], and when several
    entries share the smallest [lastActiveTime], the one encountered last
    in iteration order; the new entry is appended after it is removed. *)
Theorem eviction_removes_last_oldest key children max maxAliveTime now store :
  key ∉ keys store → (max < Z.of_nat (length store))%Z → store ≠ [] →
  ∃ i item, store !! i = Some item
    ∧ (∀ j other, store !! j = Some other → (lastActiveTime item ≤ lastActiveTime other)%Z)
    ∧ (∀ j other, store !! j = Some other → i < j → (lastActiveTime item < lastActiveTime other)%Z)
    ∧ activate key children max maxAliveTime now store
      = Normal (delete i store ++ [inserted key children now])
    ∧ length (delete i store) + 1 = length store.
Proof.
  intros Hk Hgt Hne.
  destruct (activate_unseen_overflow key children max maxAliveTime now store Hk Hgt Hne)
    as (i & item & Hi & Hmin & Hlater & Heq).
  exists i, item. split_and!; [done..|].
  rewrite length_delete by eauto. apply lookup_lt_Some in Hi. lia.
Qed.


(** C4 (the code against the evaluator of the specification).  The
    expiration evaluation of the code is the evaluator of the
    specification on every configuration but one kind.  It is false when
    the configuration is absent or zero; for a single duration [d] other
    than zero it is true exactly when [lastActiveTime + d*1000 < now]; for
    a rule list whose first matching rule has an [expire] other than zero
    it is that comparison with that [expire], and it is false when no
    rule matches.  When the first matching rule has [expire] zero, the
    specification applies it the way of the scalar zero and never
    expires, whereas the code expires as soon as [lastActiveTime < now]:
    so at the rule [{match: "x", expire: 0}], an entry last active at [0]
    and the clock at [1]. *)
Theorem needUpdate_is_shouldExpire_but_for_zero_rule (maxAliveTime : option MaxAliveTime)
    key (prev now : Z) :
  ((∀ rule, first_rule maxAliveTime key = Some rule → expire rule ≠ 0%Z) →
     needUpdate (maxAliveTime_prop maxAliveTime) key prev now
     = shouldExpire_spec prev now maxAliveTime key)
  ∧ (maxAliveTime = None ∨ maxAliveTime = Some (AliveNumber 0) →
       needUpdate (maxAliveTime_prop maxAliveTime) key prev now = false)
  ∧ (∀ d, maxAliveTime = Some (AliveNumber d) → d ≠ 0%Z →
       (needUpdate (maxAliveTime_prop maxAliveTime) key prev now = true
        ↔ (prev + d * 1000 < now)%Z))
  ∧ (∀ rules i rule, maxAliveTime = Some (AliveConfigs rules) →
       rules !! i = Some rule → rule_matches key rule →
       (∀ j earlier, rules !! j = Some earlier → j < i → ¬ rule_matches key earlier) →
       expire rule ≠ 0%Z →
       (needUpdate (maxAliveTime_prop maxAliveTime) key prev now = true
        ↔ (prev + expire rule * 1000 < now)%Z))
  ∧ (∀ rules, maxAliveTime = Some (AliveConfigs rules) →
       (∀ rule, rule ∈ rules → ¬ rule_matches key rule) →
       needUpdate (maxAliveTime_prop maxAliveTime) key prev now = false)
  ∧ (∀ rule, first_rule maxAliveTime key = Some rule → expire rule = 0%Z →
       shouldExpire_spec prev now maxAliveTime key = false
       ∧ (needUpdate (maxAliveTime_prop maxAliveTime) key prev now = true
          ↔ (prev < now)%Z))
  ∧ (needUpdate (maxAliveTime_prop (Some (x_rule 0))) "x" 0 1 = true
     ∧ shouldExpire_spec 0 1 (Some (x_rule 0)) "x" = false).
Proof.
  rewrite needUpdate_cases. split_and!.
  - intros Hnonzero. destruct maxAliveTime as [[d|rules]|]; [done| |done].
    simpl in *. destruct (list_find (rule_matches key) rules) as [[i rule]|]; [|done].
    unfold scalar_case. rewrite bool_decide_eq_false_2; [done|]. by apply Hnonzero.
  - by intros [->| ->].
  - intros d -> Hd. unfold scalar_case. rewrite bool_decide_eq_false_2 by done.
    unfold elapsed. by rewrite bool_decide_eq_true.
  - intros rules i rule -> Hi Hm Hfirst _.
    assert (list_find (rule_matches key) rules = Some (i, rule)) as ->.
    { apply list_find_Some. by split_and!. }
    unfold elapsed. by rewrite bool_decide_eq_true.
  - intros rules -> Hnone.
    assert (list_find (rule_matches key) rules = None) as ->; [|done].
    apply list_find_None, Forall_forall. intros rule Hin. by apply Hnone.
  - intros rule Hrule Hzero. destruct maxAliveTime as [[d|rules]|]; [done| |done].
    simpl in *. destruct (list_find (rule_matches key) rules) as [[i found]|]; [|done].
    injection Hrule as ->. unfold scalar_case, elapsed. rewrite Hzero. split; [done|].
    rewrite bool_decide_eq_true. lia.
  - reflexivity.
  - reflexivity.
Qed.

(** C5 (the code at the failing input).  A rule whose [expire] is zero
    does not disable expiration: the entry of its key expires as soon as
    one millisecond has passed, whereas the scalar [0] never expires. *)
Theorem zero_expire_rule_expires :
  needUpdate (x_rule 0) "x" 0 1 = true
  ∧ (∀ key prev now, needUpdate (AliveNumber 0) key prev now = false).
Proof. split; [reflexivity | intros key prev now; reflexivity]. Qed.

(** C6.  [destroy([a, b])] changes nothing when it is called; once its
    deferred task has run (after the tasks scheduled before it), the store
    is the store the task found without the entries whose [cacheKey] is
    [a] or [b]: every other entry is still there, unchanged and in the
    same order, and the queue is empty again. *)
Theorem destroy_removes_targets activeCacheKey (a b : string) (st : KeepAliveState Ele) :
  let scheduled := destroy activeCacheKey (Some (KeyArray [a; b])) st in
  let before := runMacroTasks (length (macroTasks st)) scheduled in
  let after := runMacroTask before in
  cacheNodes scheduled = cacheNodes st
  ∧ cacheNodes after
    = filter (λ item, cacheKey item ≠ a ∧ cacheKey item ≠ b) (cacheNodes before)
  ∧ (∀ item, item ∈ cacheNodes after
             ↔ item ∈ cacheNodes before ∧ cacheKey item ≠ a ∧ cacheKey item ≠ b)
  ∧ (a ∉ keys (cacheNodes after))
  ∧ (b ∉ keys (cacheNodes after))
  ∧ macroTasks after = [].
Proof.
  intros scheduled before after.
  assert (Hrun : after = mkState (destroy_updater [Some a; Some b] (cacheNodes before)) [])
    by apply scheduled_task_runs.
  assert (Hfilter : cacheNodes after
    = filter (λ item, cacheKey item ≠ a ∧ cacheKey item ≠ b) (cacheNodes before)).
  { rewrite Hrun. simpl. unfold destroy_updater. apply list_filter_iff.
    intros item. rewrite !not_elem_of_cons. split.
    - intros (Ha & Hb & _). split; congruence.
    - intros [Ha Hb]. split_and!; [congruence..|apply not_elem_of_nil]. }
  assert (Helem : ∀ item, item ∈ cacheNodes after
    ↔ item ∈ cacheNodes before ∧ cacheKey item ≠ a ∧ cacheKey item ≠ b).
  { intros item. rewrite Hfilter, list_elem_of_filter. tauto. }
  split_and!; [done|done|done| | |].
  - intros (item & -> & Hin)%list_elem_of_fmap. apply Helem in Hin. tauto.
  - intros (item & -> & Hin)%list_elem_of_fmap. apply Helem in Hin. tauto.
  - by rewrite Hrun.
Qed.

(** C7 (amended).  For a key [k] that is not the empty string, once the
    deferred task of [destroyOther(k)] has run, the store holds the
    entries of the store the task found whose [cacheKey] is [k] and no
    other: it is empty when no entry has key [k], and it is exactly that
    entry when keys are pairwise distinct. *)
Theorem destroyOther_keeps_only_target activeCacheKey key (st : KeepAliveState Ele) :
  key ≠ EmptyString →
  let scheduled := destroyOther activeCacheKey (Some key) st in
  let before := runMacroTasks (length (macroTasks st)) scheduled in
  let after := runMacroTask before in
  cacheNodes scheduled = cacheNodes st
  ∧ (∀ item, item ∈ cacheNodes after ↔ item ∈ cacheNodes before ∧ cacheKey item = key)
  ∧ (key ∉ keys (cacheNodes before) → cacheNodes after = [])
  ∧ (NoDup (keys (cacheNodes before)) →
       ∀ item, item ∈ cacheNodes before → cacheKey item = key → cacheNodes after = [item]).
Proof.
  intros Hkey scheduled before after.
  assert (Htarget : or_key (Some key) activeCacheKey = Some key).
  { unfold or_key. by rewrite bool_decide_eq_false_2. }
  assert (Hrun : after
    = mkState (destroyOther_updater (or_key (Some key) activeCacheKey) (cacheNodes before)) [])
    by apply scheduled_task_runs.
  assert (Hafter : cacheNodes after
    = filter (λ item, Some (cacheKey item) = Some key) (cacheNodes before)).
  { rewrite Hrun. cbn [cacheNodes]. by rewrite Htarget. }
  split_and!; [done| | |].
  - intros item. rewrite Hafter, list_elem_of_filter. split.
    + intros [[= ?] ?]. done.
    + intros [? ->]. done.
  - intros Hout. rewrite Hafter. apply filter_everything.
    intros item Hin [= Heq]. apply Hout. rewrite <- Heq. apply list_elem_of_fmap. eauto.
  - intros Hnd item Hin Heq. rewrite Hafter.
    apply filter_unique_key with key; [|done..]. intros other. split; congruence.
Qed.

(** C8 (amended).  For a key [k] that is not the empty string,
    [refresh(k)] at once adds exactly one to the [renderCount] of the
    entries whose [cacheKey] is [k], keeps their [content] and
    [lastActiveTime], keeps every other entry as it is, and keeps the
    store value-identical when no entry has key [k]; nothing is
    deferred. *)
Theorem refresh_bumps_only_target activeCacheKey key (st : KeepAliveState Ele) :
  key ≠ EmptyString →
  let after := refresh activeCacheKey (Some key) st in
  length (cacheNodes after) = length (cacheNodes st)
  ∧ (∀ i item, cacheNodes st !! i = Some item → cacheKey item = key →
       cacheNodes after !! i = Some
         {| cacheKey := cacheKey item; ele := ele item;
            lastActiveTime := lastActiveTime item;
            renderCount := (renderCount item + 1)%Z |})
  ∧ (∀ i item, cacheNodes st !! i = Some item → cacheKey item ≠ key →
       cacheNodes after !! i = Some item)
  ∧ (key ∉ keys (cacheNodes st) → cacheNodes after = cacheNodes st)
  ∧ macroTasks after = macroTasks st.
Proof.
  intros Hkey after.
  assert (Hafter : cacheNodes after = refresh_updater (Some key) (cacheNodes st)).
  { unfold after, refresh, setCacheNodes, or_key. simpl.
    by rewrite bool_decide_eq_false_2. }
  rewrite Hafter. unfold refresh_updater. split_and!.
  - by rewrite length_fmap.
  - intros i item Hi Heq. rewrite list_lookup_fmap, Hi. simpl.
    rewrite bool_decide_eq_true_2; [done|congruence].
  - intros i item Hi Hne. rewrite list_lookup_fmap, Hi. simpl.
    rewrite bool_decide_eq_false_2; [done|congruence].
  - intros Hout. apply list_eq. intros i. rewrite list_lookup_fmap.
    destruct (cacheNodes st !! i) as [item|] eqn:Hi; [|done]. simpl.
    rewrite bool_decide_eq_false_2; [done|].
    intros [= Heq]. apply Hout. rewrite <- Heq. apply list_elem_of_fmap.
    exists item. split; [done|]. by eapply list_elem_of_lookup_2.
  - done.
Qed.

(** C9.  Key uniqueness is an invariant.  From a store in which no two
    entries share a [cacheKey], the updater of each operation (activation
    in its update branch and in its insert branch with eviction,
    [refresh], [destroy], [destroyAll], [destroyOther]) yields a store in
    which no two entries share one; and so does every state the component
    reaches from that store through any sequence of these operations and
    turns of the task queue. *)
Theorem key_uniqueness_invariant store :
  NoDup (keys store) →
  (∀ key children max maxAliveTime now store',
     activate key children max maxAliveTime now store = Normal store' → NoDup (keys store'))
  ∧ (∀ key children max maxAliveTime now, (0 ≤ max)%Z →
       ∃ store', activate key children max maxAliveTime now store = Normal store')
  ∧ (∀ target, NoDup (keys (refresh_updater target store)))
  ∧ (∀ cacheKeys, NoDup (keys (destroy_updater cacheKeys store)))
  ∧ NoDup (keys (cacheNodes (runMacroTask (destroyAll (mkState store [])))))
  ∧ (∀ target, NoDup (keys (destroyOther_updater target store)))
  ∧ (∀ st, reachable store st → NoDup (keys (cacheNodes st))).
Proof.
  intros Hnd. split_and!.
  - intros key children max maxAliveTime now store'. by apply activate_keeps_keys_unique.
  - intros key children max maxAliveTime now Hmax. by apply activate_total.
  - intros target. by rewrite keys_refresh_updater.
  - intros cacheKeys. by apply NoDup_keys_filter.
  - apply NoDup_nil_2.
  - intros target. by apply NoDup_keys_filter.
  - intros st Hreach. by destruct (reachable_unique_keys store st Hnd Hreach).
Qed.

(** C10.  An empty-string key is treated as an absent argument.
    [refresh], [destroy] and [destroyOther] called with it are the calls
    without argument, and what they change is the entry of the active
    key: [refresh] adds one to the [renderCount] of the entries whose key
    is the active key and leaves every other entry as it is, an entry
    whose key is the empty string included; once its task has run,
    [destroy] has removed the entries of the active key and no other, and
    [destroyOther] has kept the entries of the active key and no other.
    Whereas [destroy([])] has no target key at all: it schedules its task
    all the same, and the task leaves the store it finds
    value-identical. *)
Theorem empty_key_falls_back_to_active activeCacheKey (st : KeepAliveState Ele) :
  (refresh activeCacheKey (Some EmptyString) st = refresh activeCacheKey None st
   ∧ cacheNodes (refresh activeCacheKey (Some EmptyString) st)
     = refresh_updater activeCacheKey (cacheNodes st)
   ∧ ∀ i item, cacheNodes st !! i = Some item →
       cacheNodes (refresh activeCacheKey (Some EmptyString) st) !! i
       = Some (if decide (Some (cacheKey item) = activeCacheKey)
               then {| cacheKey := cacheKey item; ele := ele item;
                       lastActiveTime := lastActiveTime item;
                       renderCount := (renderCount item + 1)%Z |}
               else item))
  ∧ (destroy activeCacheKey (Some (KeyString EmptyString)) st = destroy activeCacheKey None st
     ∧ destroy_cacheKeys activeCacheKey (Some (KeyString EmptyString)) = [activeCacheKey]
     ∧ let scheduled := destroy activeCacheKey (Some (KeyString EmptyString)) st in
       let before := runMacroTasks (length (macroTasks st)) scheduled in
       let after := runMacroTask before in
       cacheNodes scheduled = cacheNodes st
       ∧ ∀ item, item ∈ cacheNodes after
                 ↔ item ∈ cacheNodes before ∧ Some (cacheKey item) ≠ activeCacheKey)
  ∧ (destroyOther activeCacheKey (Some EmptyString) st = destroyOther activeCacheKey None st
     ∧ destroyOther activeCacheKey (Some EmptyString) st
       = macroTask (destroyOther_updater activeCacheKey) st
     ∧ let scheduled := destroyOther activeCacheKey (Some EmptyString) st in
       let before := runMacroTasks (length (macroTasks st)) scheduled in
       let after := runMacroTask before in
       cacheNodes scheduled = cacheNodes st
       ∧ ∀ item, item ∈ cacheNodes after
                 ↔ item ∈ cacheNodes before ∧ Some (cacheKey item) = activeCacheKey)
  ∧ (destroy_cacheKeys activeCacheKey (Some (KeyArray [])) = []
     ∧ let scheduled := destroy activeCacheKey (Some (KeyArray [])) st in
       let before := runMacroTasks (length (macroTasks st)) scheduled in
       length (macroTasks scheduled) = S (length (macroTasks st))
       ∧ cacheNodes (runMacroTask before) = cacheNodes before
       ∧ macroTasks (runMacroTask before) = []).
Proof.
  split_and!; try reflexivity.
  - intros i item Hi. cbn [refresh setCacheNodes cacheNodes or_key].
    rewrite bool_decide_eq_true_2 by done. unfold refresh_updater.
    rewrite list_lookup_fmap, Hi. simpl.
    destruct (decide (Some (cacheKey item) = activeCacheKey)) as [Heq|Hne].
    + by rewrite bool_decide_eq_true_2.
    + by rewrite bool_decide_eq_false_2.
  - intros scheduled before after. split; [done|].
    assert (Hrun : after = mkState (destroy_updater [activeCacheKey] (cacheNodes before)) [])
      by apply scheduled_task_runs.
    intros item. rewrite Hrun. cbn [cacheNodes]. unfold destroy_updater.
    rewrite list_elem_of_filter, not_elem_of_cons. split.
    + intros [[Hne _] Hin]. by split.
    + intros [Hin Hne]. split; [|done]. split; [done|apply not_elem_of_nil].
  - intros scheduled before after. split; [done|].
    assert (Hrun : after = mkState (destroyOther_updater activeCacheKey (cacheNodes before)) [])
      by apply scheduled_task_runs.
    intros item. rewrite Hrun. cbn [cacheNodes]. unfold destroyOther_updater.
    rewrite list_elem_of_filter. tauto.
  - intros scheduled before.
    assert (Hrun : runMacroTask before = mkState (destroy_updater [] (cacheNodes before)) [])
      by apply scheduled_task_runs.
    split_and!.
    + unfold scheduled, destroy, macroTask. simpl. rewrite length_app. simpl. lia.
    + rewrite Hrun. simpl. unfold destroy_updater.
      apply filter_nothing. intros item _. apply not_elem_of_nil.
    + by rewrite Hrun.
Qed.

End Claims.

(** * Further properties of the component *)

Section Activating.
Context {Ele : Type}.
Implicit Types (store : list (CacheNode Ele)) (item : CacheNode Ele) (key : string).

(** X1.  The activation updater throws exactly when an unseen key meets an
    empty store under a negative [max]: the [reduce] of the eviction then
    runs on an empty array.  In every other case it returns a store. *)
Theorem activate_throws_iff key children max maxAliveTime now store :
  activate key children max maxAliveTime now store = Throw TypeError
  ↔ store = [] ∧ (max < 0)%Z.
Proof.
  split.
  - intros Hthrow. destruct store as [|first rest].
    + split; [done|]. destruct (decide (0 ≤ max)%Z) as [Hmax|Hmax]; [|lia].
      by destruct (activate_total key children max maxAliveTime now [] Hmax) as [? Heq];
        rewrite Heq in Hthrow.
    + exfalso. destruct (decide (key ∈ keys (first :: rest))) as [Hin|Hout].
      * by rewrite activate_seen in Hthrow.
      * destruct (decide (Z.of_nat (length (first :: rest)) ≤ max)%Z) as [Hle|Hgt].
        -- by rewrite activate_unseen_within in Hthrow.
        -- destruct (activate_unseen_overflow key children max maxAliveTime now (first :: rest))
             as (i & item & _ & _ & _ & Heq); [done|lia|done|].
           by rewrite Heq in Hthrow.
  - intros [-> Hmax]. unfold activate, evict. simpl.
    change (Z.of_nat 0) with 0%Z. destruct (Z.gtb_spec 0 max); [done|lia].
Qed.

(** X2.  After an activation that returns, the store has an entry for the
    activated key, every entry of that key carries the new children and
    the clock reading of the activation, and a key that was not in the
    store before is its last entry, with [renderCount] zero. *)
Theorem activation_installs_key key children max maxAliveTime now store store' :
  activate key children max maxAliveTime now store = Normal store' →
  key ∈ keys store'
  ∧ (∀ item, item ∈ store' → cacheKey item = key →
       ele item = children ∧ lastActiveTime item = now)
  ∧ (key ∉ keys store → last store' = Some (inserted key children now)).
Proof.
  intros Hact. destruct (decide (key ∈ keys store)) as [Hin|Hout].
  - rewrite activate_seen in Hact by done. injection Hact as <-. split_and!.
    + by rewrite keys_update_item.
    + intros item (old & -> & Hold)%list_elem_of_fmap. unfold update_item.
      destruct (has_key key old) eqn:E; [done|].
      unfold has_key in E. apply bool_decide_eq_false in E. done.
    + done.
  - rewrite activate_unseen in Hact by done.
    destruct (evict max store) as [kept|e] eqn:Hev; [|done].
    simpl in Hact. injection Hact as <-.
    assert (Hkept : ∀ k, k ∈ keys kept → k ∈ keys store).
    { intros k Hk. revert Hev. unfold evict.
      destruct (Z.gtb_spec (Z.of_nat (length store)) max).
      - destruct (reduce older (imap pair store)) as [node|]; [|done].
        simpl. intros [= <-]. eapply elem_of_sublist; [exact Hk|].
        unfold keys. apply fmap_sublist, splice1_sublist.
      - by intros [= <-]. }
    split_and!.
    + rewrite keys_app, elem_of_app. right. apply list_elem_of_singleton. done.
    + intros item [Hin| Hin]%elem_of_app Hkey.
      * exfalso. apply Hout, Hkept. rewrite <- Hkey. apply list_elem_of_fmap. eauto.
      * apply list_elem_of_singleton in Hin. by subst item.
    + intros _. apply last_snoc.
Qed.

(** X3.  Reactivating a key that is in the store never evicts and never
    reorders, whatever [max] is and however full the store is: the keys of
    the store are the same list before and after. *)
Theorem reactivation_keeps_keys key children max maxAliveTime now store :
  key ∈ keys store →
  ∃ store', activate key children max maxAliveTime now store = Normal store'
    ∧ keys store' = keys store.
Proof.
  intros Hin. eexists. split; [by apply activate_seen|]. apply keys_update_item.
Qed.

End Activating.

Section Capacity.
Context {Ele : Type}.
Implicit Types (store : list (CacheNode Ele)) (item : CacheNode Ele) (key : string).
Implicit Types (st : KeepAliveState Ele).

Lemma destroy_updater_shrinks cacheKeys : shrinks (Ele:=Ele) (destroy_updater cacheKeys).
Proof. intros store. apply sublist_filter. Qed.

Lemma destroyOther_updater_shrinks target : shrinks (Ele:=Ele) (destroyOther_updater target).
Proof. intros store. apply sublist_filter. Qed.

Lemma empty_shrinks : shrinks (Ele:=Ele) (λ _, []).
Proof. intros store. apply sublist_nil_l. Qed.

(** The tasks the lifecycle API schedules only ever take entries away. *)
Lemma step_under_shrinks max st st' :
  step_under max st st' → Forall shrinks (macroTasks st) → Forall shrinks (macroTasks st').
Proof.
  intros Hstep Htasks. destruct Hstep as
    [active children maxAliveTime now st' Heff | active key | active key | | active key | ].
  - unfold layoutEffect, safeStartTransition, mret, mbind, Completion_ret, Completion_bind in Heff.
    destruct active as [key|]; [|by injection Heff as <-].
    destruct (activate key children max maxAliveTime now (cacheNodes st)); [|done].
    by injection Heff as <-.
  - done.
  - simpl. apply Forall_app. split; [done|]. apply Forall_singleton, destroy_updater_shrinks.
  - simpl. apply Forall_app. split; [done|]. apply Forall_singleton, empty_shrinks.
  - simpl. apply Forall_app. split; [done|].
    apply Forall_singleton, destroyOther_updater_shrinks.
  - unfold runMacroTask. destruct (macroTasks st) as [|task rest] eqn:E; [by rewrite E|].
    simpl. by apply Forall_cons in Htasks as [_ ?].
Qed.

Lemma activate_length max key children maxAliveTime now store store' :
  activate key children max maxAliveTime now store = Normal store' →
  length store' ≤ Nat.max (length store) (Z.to_nat (max + 1)).
Proof.
  intros Hact. destruct (decide (key ∈ keys store)) as [Hin|Hout].
  - rewrite activate_seen in Hact by done. injection Hact as <-.
    rewrite length_fmap. lia.
  - destruct (decide (Z.of_nat (length store) ≤ max)%Z) as [Hle|Hgt].
    + rewrite activate_unseen_within in Hact by done. injection Hact as <-.
      rewrite length_app. simpl. lia.
    + destruct store as [|first rest].
      { assert (activate key children max maxAliveTime now [] = Throw TypeError) as Hthrow.
        { apply activate_throws_iff. simpl in Hgt. split; [done|lia]. }
        by rewrite Hthrow in Hact. }
      destruct (activate_unseen_overflow key children max maxAliveTime now (first :: rest))
        as (i & item & Hi & _ & _ & Heq); [done|lia|done|].
      rewrite Heq in Hact. injection Hact as <-.
      rewrite length_app, length_delete by eauto. simpl. lia.
Qed.

Lemma step_under_length max st st' :
  step_under max st st' → Forall shrinks (macroTasks st) →
  length (cacheNodes st') ≤ Nat.max (length (cacheNodes st)) (Z.to_nat (max + 1)).
Proof.
  intros Hstep Htasks. destruct Hstep as
    [active children maxAliveTime now st' Heff | active key | active key | | active key | ].
  - unfold layoutEffect, safeStartTransition, mret, mbind, Completion_ret, Completion_bind in Heff.
    destruct active as [key|]; [|injection Heff as <-; lia].
    destruct (activate key children max maxAliveTime now (cacheNodes st)) as [next|] eqn:E;
      [|done].
    injection Heff as <-. simpl. by eapply activate_length.
  - simpl. unfold refresh_updater. rewrite length_fmap. lia.
  - simpl. lia.
  - simpl. lia.
  - simpl. lia.
  - unfold runMacroTask. destruct (macroTasks st) as [|task rest] eqn:E; [lia|].
    simpl. apply Forall_cons in Htasks as [Htask _].
    specialize (Htask (cacheNodes st)). apply sublist_length in Htask. lia.
Qed.

(** X4.  Along any run of a component rendered with capacity [max]
    (activations of any keys, [refresh], the three destroy operations and
    turns of the task queue, in any order), started in a state whose
    waiting tasks only take entries away (as those of the destroy
    operations do; an empty queue in particular), the store never holds
    more entries than [max + 1], or than it held at the start of the run
    if that was more. *)
Theorem size_never_exceeds_capacity (max : Z) st st' :
  rtc (step_under max) st st' → Forall shrinks (macroTasks st) →
  length (cacheNodes st') ≤ Nat.max (length (cacheNodes st)) (Z.to_nat (max + 1)).
Proof.
  intros Hrun Htasks.
  cut (length (cacheNodes st') ≤ Nat.max (length (cacheNodes st)) (Z.to_nat (max + 1))
       ∧ Forall shrinks (macroTasks st')); [tauto|].
  revert st' Hrun.
  apply (rtc_ind_r (λ st', length (cacheNodes st')
                           ≤ Nat.max (length (cacheNodes st)) (Z.to_nat (max + 1))
                           ∧ Forall shrinks (macroTasks st'))).
  - split; [lia|done].
  - intros st1 st2 Hrun Hstep [IHlen IHtasks].
    split; [|by eapply step_under_shrinks].
    pose proof (step_under_length max st1 st2 Hstep IHtasks). lia.
Qed.

Lemma lookup_entries_of (acts : list (Activation Ele)) i :
  entries_of acts !! i
  = (λ a, inserted (act_key a) (act_children a) (act_now a)) <$> acts !! i.
Proof. unfold entries_of. apply list_lookup_fmap. Qed.

Lemma keys_entries_of (acts : list (Activation Ele)) : keys (entries_of acts) = act_key <$> acts.
Proof. unfold keys, entries_of. by rewrite <- list_fmap_compose. Qed.

(** One insertion into the window of the activations done so far, under a
    clock that goes up strictly. *)
Lemma activate_window (N : nat) maxAliveTime (done : list (Activation Ele)) a :
  NoDup (act_key <$> (done ++ [a])) → clock_increases (done ++ [a]) →
  activate (act_key a) (act_children a) (Z.of_nat N) maxAliveTime (act_now a)
    (last_n (N + 1) (entries_of done))
  = Normal (last_n (N + 1) (entries_of (done ++ [a]))).
Proof.
  intros Hnd Hclock. unfold last_n.
  set (off := length (entries_of done) - (N + 1)).
  assert (Hlen : length (entries_of done) = length done)
    by (unfold entries_of; apply length_fmap).
  assert (Hsnoc : entries_of (done ++ [a])
    = entries_of done ++ [inserted (act_key a) (act_children a) (act_now a)])
    by (unfold entries_of; by rewrite fmap_app).
  assert (Hfresh : act_key a ∉ keys (drop off (entries_of done))).
  { intros Hin. rewrite fmap_app in Hnd. apply NoDup_app in Hnd as (_ & Hdisj & _).
    apply (Hdisj (act_key a)); [|left].
    rewrite <- keys_entries_of. unfold keys in *. rewrite fmap_drop in Hin.
    eapply elem_of_sublist; [exact Hin|apply sublist_drop]. }
  rewrite Hsnoc, length_app. simpl.
  destruct (decide (length done ≤ N)) as [Hsmall|Hbig].
  - assert (off = 0) as -> by (unfold off; lia).
    replace (length (entries_of done) + 1 - (N + 1)) with 0 by lia.
    rewrite !drop_0. apply activate_unseen_within; [by rewrite drop_0 in Hfresh|lia].
  - replace (length (entries_of done) + 1 - (N + 1)) with (off + 1) by (unfold off; lia).
    rewrite drop_app_le by (unfold off; lia).
    set (window := drop off (entries_of done)) in *.
    assert (Hwlen : length window = N + 1)
      by (unfold window, off; rewrite length_drop; lia).
    destruct (activate_unseen_overflow (act_key a) (act_children a) (Z.of_nat N)
      maxAliveTime (act_now a) window) as (i & item & Hi & Hmin & _ & ->); [done|lia| |].
    { intros Hnil. apply (f_equal length) in Hnil. simpl in Hnil. lia. }
    assert (i = 0) as ->.
    { destruct i as [|i]; [done|]. exfalso.
      destruct (window !! 0) as [first|] eqn:Hfirst.
      2: { apply lookup_ge_None in Hfirst. lia. }
      specialize (Hmin 0 first Hfirst).
      unfold window in Hi, Hfirst. rewrite lookup_drop, lookup_entries_of in Hi, Hfirst.
      destruct (done !! (off + S i)) as [b|] eqn:Hb; [|done].
      destruct (done !! (off + 0)) as [c|] eqn:Hc; [|done].
      simpl in Hi, Hfirst. injection Hi as <-. injection Hfirst as <-. simpl in Hmin.
      assert (act_now c < act_now b)%Z; [|lia].
      apply (Hclock (off + 0) (off + S i)); [by apply lookup_app_l_Some..|lia]. }
    f_equal. f_equal. unfold window.
    destruct (drop off (entries_of done)) as [|first rest] eqn:E.
    { unfold window in Hwlen. simpl in Hwlen. lia. }
    by rewrite <- drop_drop, E.
Qed.

Lemma activations_window (N : nat) maxAliveTime (acts done : list (Activation Ele)) :
  NoDup (act_key <$> (done ++ acts)) → clock_increases (done ++ acts) →
  activations (Z.of_nat N) maxAliveTime acts (last_n (N + 1) (entries_of done))
  = Normal (last_n (N + 1) (entries_of (done ++ acts))).
Proof.
  revert done. induction acts as [|a rest IH]; intros done Hnd Hclock.
  - by rewrite app_nil_r.
  - assert (Happ : done ++ a :: rest = (done ++ [a]) ++ rest) by (by rewrite <- app_assoc).
    rewrite Happ in Hnd, Hclock |- *. simpl.
    rewrite (activate_window N maxAliveTime done a).
    + simpl. by apply IH.
    + rewrite fmap_app in Hnd. by apply NoDup_app in Hnd as [? _].
    + intros i j b c Hb Hc Hij. apply (Hclock i j b c); [| |done].
      * by apply lookup_app_l_Some.
      * by apply lookup_app_l_Some.
Qed.

(** X5.  When the keys of a run of activations are pairwise distinct and
    the clock goes up strictly from each activation to the next, eviction
    is first in, first out: from the empty store under capacity [N], the
    store after the run holds the entries of the last [N + 1] activations,
    in the order of the activations. *)
Theorem increasing_clock_keeps_last_activations (N : nat) maxAliveTime
    (acts : list (Activation Ele)) :
  NoDup (act_key <$> acts) → clock_increases acts →
  activations (Z.of_nat N) maxAliveTime acts [] = Normal (last_n (N + 1) (entries_of acts)).
Proof.
  intros Hnd Hclock. by apply (activations_window N maxAliveTime acts []).
Qed.

End Capacity.

Section Lifecycle.
Context {Ele : Type}.
Implicit Types (store : list (CacheNode Ele)) (item : CacheNode Ele) (key : string).
Implicit Types (st : KeepAliveState Ele).

Lemma step_step_under st st' : step st st' ↔ ∃ max, step_under max st st'.
Proof.
  split.
  - intros [active children max maxAliveTime now st2 Heff | | | | | ].
    + exists max. by eapply under_activate.
    + exists 0%Z. apply under_refresh.
    + exists 0%Z. apply under_destroy.
    + exists 0%Z. apply under_destroyAll.
    + exists 0%Z. apply under_destroyOther.
    + exists 0%Z. apply under_macroTask.
  - intros [max [active children maxAliveTime now st2 Heff | | | | | ]].
    + by eapply step_activate.
    + apply step_refresh.
    + apply step_destroy.
    + apply step_destroyAll.
    + apply step_destroyOther.
    + apply step_macroTask.
Qed.

Lemma runMacroTasks_all (tasks : list (list (CacheNode Ele) → list (CacheNode Ele))) store :
  runMacroTasks (length tasks) (mkState store tasks)
  = mkState (foldl (λ acc task, task acc) store tasks) [].
Proof. by rewrite <- (app_nil_r tasks) at 2; rewrite runMacroTasks_app. Qed.

Lemma reachable_shrinks store st : reachable store st → Forall shrinks (macroTasks st).
Proof.
  induction 1 as [|st st' _ IH Hstep]; [apply Forall_nil_2|].
  apply step_step_under in Hstep as [max Hstep]. by eapply step_under_shrinks.
Qed.

Lemma evict_sublist max store kept : evict max store = Normal kept → kept `sublist_of` store.
Proof.
  unfold evict. destruct (Z.gtb_spec (Z.of_nat (length store)) max).
  - destruct (reduce older (imap pair store)) as [node|]; [|done].
    simpl. intros [= <-]. apply splice1_sublist.
  - by intros [= <-].
Qed.

(** What one operation does to the [renderCount] of an entry. *)
Lemma step_renderCount st st' item' :
  step st st' → Forall shrinks (macroTasks st) → item' ∈ cacheNodes st' →
  ((cacheKey item' ∉ keys (cacheNodes st)) ∧ renderCount item' = 0%Z)
  ∨ ∃ item, item ∈ cacheNodes st ∧ cacheKey item' = cacheKey item
      ∧ (renderCount item' = renderCount item
         ∨ renderCount item' = (renderCount item + 1)%Z).
Proof.
  intros Hstep Htasks Hin'.
  assert (Hsame : item' ∈ cacheNodes st →
    ∃ item, item ∈ cacheNodes st ∧ cacheKey item' = cacheKey item
      ∧ (renderCount item' = renderCount item
         ∨ renderCount item' = (renderCount item + 1)%Z)) by (intros ?; eauto).
  destruct Hstep as
    [active children max maxAliveTime now st' Heff | active key | active key | | active key | ].
  - unfold layoutEffect, safeStartTransition, mret, mbind, Completion_ret, Completion_bind in Heff.
    destruct active as [key|]; [|injection Heff as <-; by right; apply Hsame].
    destruct (activate key children max maxAliveTime now (cacheNodes st)) as [next|] eqn:E;
      [|done].
    injection Heff as <-. simpl in Hin'.
    destruct (decide (key ∈ keys (cacheNodes st))) as [Hseen|Hunseen].
    + rewrite activate_seen in E by done. injection E as <-.
      apply list_elem_of_fmap in Hin' as (item & -> & Hin). right. exists item.
      unfold update_item. destruct (has_key key item); [|by auto].
      simpl. split_and!; [done..|]. destruct (needUpdate _ _ _ _); auto.
    + rewrite activate_unseen in E by done.
      destruct (evict max (cacheNodes st)) as [kept|] eqn:Hev; [|done].
      simpl in E. injection E as <-.
      apply elem_of_app in Hin' as [Hin|Hin].
      * right. apply Hsame. eapply elem_of_sublist; [done|by eapply evict_sublist].
      * apply list_elem_of_singleton in Hin. subst item'. by left.
  - simpl in Hin'. unfold refresh_updater in Hin'.
    apply list_elem_of_fmap in Hin' as (item & -> & Hin). right. exists item.
    case_bool_decide; simpl; auto.
  - right. by apply Hsame.
  - right. by apply Hsame.
  - right. by apply Hsame.
  - right. apply Hsame. unfold runMacroTask in Hin'.
    destruct (macroTasks st) as [|task rest] eqn:E; [done|].
    apply Forall_cons in Htasks as [Htask _]. simpl in Hin'.
    eapply elem_of_sublist; [done|apply Htask].
Qed.

(** X6.  No operation ever lowers a [renderCount], and none raises it by
    more than one: after any one operation on a state the component can
    reach, an entry either is new (its key was not in the store, its
    [renderCount] is zero) or continues an entry of the same key whose
    [renderCount] it keeps or exceeds by exactly one. *)
Theorem renderCount_changes_by_at_most_one store st st' item' :
  reachable store st → step st st' → item' ∈ cacheNodes st' →
  ((cacheKey item' ∉ keys (cacheNodes st)) ∧ renderCount item' = 0%Z)
  ∨ ∃ item, item ∈ cacheNodes st ∧ cacheKey item' = cacheKey item
      ∧ (renderCount item' = renderCount item
         ∨ renderCount item' = (renderCount item + 1)%Z).
Proof.
  intros Hreach Hstep Hin. eapply step_renderCount; [done| |done].
  by eapply reachable_shrinks.
Qed.

Lemma reachable_renderCount_nonneg store st :
  (∀ item, item ∈ store → (0 ≤ renderCount item)%Z) → reachable store st →
  ∀ item, item ∈ cacheNodes st → (0 ≤ renderCount item)%Z.
Proof.
  intros Hstart Hreach. induction Hreach as [|st st' Hreach IH Hstep]; [done|].
  intros item' Hin'.
  destruct (step_renderCount st st' item' Hstep (reachable_shrinks _ _ Hreach) Hin')
    as [[_ ->]|(item & Hin & _ & [->| ->])]; [lia|by apply IH|].
  specialize (IH item Hin). lia.
Qed.

(** X7.  In every state the component reaches from the empty store,
    through any operations in any order, every [renderCount] is a natural
    number: it is never negative. *)
Theorem renderCount_never_negative st :
  reachable [] st →
  ∀ item, item ∈ cacheNodes st → (0 ≤ renderCount item)%Z.
Proof.
  intros Hreach. eapply reachable_renderCount_nonneg; [|done].
  intros item Hin. by apply elem_of_nil in Hin.
Qed.

(** X8.  [destroyAll()] changes nothing when it is called; once its
    deferred task has run (after the tasks scheduled before it) the store
    is empty, whatever it held, and the queue is empty; an activation that
    follows under a capacity that is not negative starts the store again
    with the one new entry. *)
Theorem destroyAll_empties_store st :
  let scheduled := destroyAll st in
  let before := runMacroTasks (length (macroTasks st)) scheduled in
  let after := runMacroTask before in
  cacheNodes scheduled = cacheNodes st
  ∧ after = mkState [] []
  ∧ (∀ key children max maxAliveTime now, (0 ≤ max)%Z →
       layoutEffect (Some key) children max maxAliveTime now after
       = Normal (mkState [inserted key children now] [])).
Proof.
  intros scheduled before after.
  assert (Hrun : after = mkState [] []) by apply (scheduled_task_runs (λ _, [])).
  split_and!; [done|done|].
  intros key children max maxAliveTime now Hmax. rewrite Hrun.
  unfold layoutEffect, safeStartTransition. simpl.
  rewrite activate_unseen_within; [done|apply not_elem_of_nil|simpl; lia].
Qed.

(** X9.  Two [destroy] calls made one after the other amount to one call
    with both key lists: once both deferred tasks have run, the store is
    the one a single [destroy] of the concatenated list leaves. *)
Theorem destroy_twice_is_destroy_both activeCacheKey (keys1 keys2 : list string) st :
  cacheNodes (runMacroTasks (length (macroTasks st) + 2)
    (destroy activeCacheKey (Some (KeyArray keys2))
      (destroy activeCacheKey (Some (KeyArray keys1)) st)))
  = cacheNodes (runMacroTasks (length (macroTasks st) + 1)
      (destroy activeCacheKey (Some (KeyArray (keys1 ++ keys2))) st)).
Proof.
  destruct st as [store tasks]. unfold destroy, macroTask. simpl.
  set (task1 := destroy_updater (Ele:=Ele) (Some <$> keys1)).
  set (task2 := destroy_updater (Ele:=Ele) (Some <$> keys2)).
  set (both := destroy_updater (Ele:=Ele) (Some <$> keys1 ++ keys2)).
  assert (length tasks + 2 = length ((tasks ++ [task1]) ++ [task2])) as ->
    by (rewrite !length_app; simpl; lia).
  assert (length tasks + 1 = length (tasks ++ [both])) as ->
    by (rewrite !length_app; simpl; lia).
  rewrite !runMacroTasks_all. simpl. rewrite !foldl_app. simpl.
  unfold task1, task2, both, destroy_updater.
  rewrite list_filter_filter. apply list_filter_iff.
  intros item. rewrite fmap_app, not_elem_of_app. tauto.
Qed.

(** X10.  A deferred [destroy] reads the store when its task runs, not
    when it is called: an activation made after the call and before the
    task, of one of the destroyed keys too, does not keep that key in the
    store. *)
Theorem destroy_sees_later_activation activeCacheKey (targets : list string)
    activeCacheKey' children max maxAliveTime now st st' :
  layoutEffect activeCacheKey' children max maxAliveTime now
    (destroy activeCacheKey (Some (KeyArray targets)) st) = Normal st' →
  ∀ key, key ∈ targets →
    key ∉ keys (cacheNodes (runMacroTasks (length (macroTasks st) + 1) st')).
Proof.
  intros Heff key Hkey.
  assert (∃ store', st' = mkState store'
            (macroTasks st ++ [destroy_updater (Some <$> targets)])) as [store' ->].
  { unfold layoutEffect, safeStartTransition, mret, mbind, Completion_ret,
      Completion_bind in Heff.
    destruct activeCacheKey' as [k|]; [|injection Heff as <-; by eexists].
    destruct (activate k children max maxAliveTime now _) as [next|]; [|done].
    injection Heff as <-. by eexists. }
  assert (length (macroTasks st) + 1
          = length (macroTasks st ++ [destroy_updater (Ele:=Ele) (Some <$> targets)])) as ->
    by (rewrite length_app; simpl; lia).
  rewrite runMacroTasks_all. simpl. rewrite foldl_app. simpl. unfold destroy_updater.
  intros (item & Heq & Hin)%list_elem_of_fmap.
  apply list_elem_of_filter in Hin as [Hnot _]. apply Hnot.
  apply list_elem_of_fmap. exists key. by rewrite <- Heq.
Qed.

(** X11.  [destroy] with one key: for a key that is not the empty string,
    and for the call without argument with the active key in its place,
    the deferred task removes the entries of that key and nothing else,
    and it leaves the store value-identical when that key has no entry. *)
Theorem destroy_one_key activeCacheKey (cacheKey' : option string) key st :
  (cacheKey' = Some key ∧ key ≠ EmptyString) ∨ (cacheKey' = None ∧ activeCacheKey = Some key) →
  let scheduled := destroy activeCacheKey (KeyString <$> cacheKey') st in
  let before := runMacroTasks (length (macroTasks st)) scheduled in
  let after := runMacroTask before in
  (∀ item, item ∈ cacheNodes after ↔ item ∈ cacheNodes before ∧ cacheKey item ≠ key)
  ∧ (key ∉ keys (cacheNodes before) → cacheNodes after = cacheNodes before).
Proof.
  intros Harg scheduled before after.
  assert (Htargets : destroy_cacheKeys activeCacheKey (KeyString <$> cacheKey') = [Some key]).
  { destruct Harg as [[-> Hne]|[-> ->]]; simpl; [|done].
    unfold or_key. by rewrite bool_decide_eq_false_2. }
  assert (Hrun : after = mkState
    (destroy_updater (destroy_cacheKeys activeCacheKey (KeyString <$> cacheKey'))
       (cacheNodes before)) []) by apply scheduled_task_runs.
  rewrite Htargets in Hrun. rewrite Hrun. cbn [cacheNodes]. unfold destroy_updater. split.
  - intros item. rewrite list_elem_of_filter, not_elem_of_cons. split.
    + intros [[Hne _] Hin]. split; [done|congruence].
    + intros [Hin Hne]. split; [|done]. split; [congruence|apply not_elem_of_nil].
  - intros Hout. apply filter_nothing. intros item Hin.
    rewrite not_elem_of_cons. split; [|apply not_elem_of_nil].
    intros [= Heq]. apply Hout. rewrite <- Heq. apply list_elem_of_fmap. eauto.
Qed.

End Lifecycle.

Section Expiry.
Context {Ele : Type}.
Implicit Types (store : list (CacheNode Ele)) (item : CacheNode Ele) (key : string).

(** X12.  Expiry is monotone in time, under every configuration: an entry
    that counts as expired at some clock reading counts as expired at
    every later reading, and an entry last active earlier than an expired
    one is expired too. *)
Theorem expired_stays_expired maxAliveTime key (prev prev' now now' : Z) :
  needUpdate maxAliveTime key prev now = true →
  (now ≤ now')%Z → (prev' ≤ prev)%Z →
  needUpdate maxAliveTime key prev' now' = true.
Proof.
  unfold needUpdate. intros Hexp Hnow Hprev.
  destruct (truthy maxAliveTime); [|done].
  destruct maxAliveTime as [d|configs].
  - apply Z.ltb_lt in Hexp. apply Z.ltb_lt. lia.
  - destruct (find (config_applies key) configs) as [config|]; [|done].
    apply Z.ltb_lt in Hexp. apply Z.ltb_lt. lia.
Qed.

(** X13.  The expiry clock restarts at every activation, expired or not:
    when a key in the store is reactivated at [now1] and again at [now2],
    the second evaluation compares [now2] with [now1], not with the time
    the entry had before, and the entry ends with the children and the
    clock reading of the second activation. *)
Theorem expiry_clock_restarts key children1 children2 max maxAliveTime (now1 now2 : Z) store :
  key ∈ keys store →
  ∃ store'',
    activations max maxAliveTime
      [mkActivation key children1 now1; mkActivation key children2 now2] store
    = Normal store''
    ∧ ∀ i item, store !! i = Some item → cacheKey item = key →
        store'' !! i = Some
          {| cacheKey := key; ele := children2; lastActiveTime := now2;
             renderCount :=
               (renderCount item
                + (if needUpdate maxAliveTime key (lastActiveTime item) now1 then 1 else 0)
                + (if needUpdate maxAliveTime key now1 now2 then 1 else 0))%Z |}.
Proof.
  intros Hin. eexists. split.
  - simpl. rewrite activate_seen by done. simpl.
    rewrite activate_seen by (by rewrite keys_update_item). done.
  - intros i item Hi Hkey. rewrite !list_lookup_fmap, Hi. simpl.
    unfold update_item at 2. unfold has_key. rewrite bool_decide_eq_true_2 by done.
    unfold update_item, has_key. simpl. rewrite bool_decide_eq_true_2 by done. simpl.
    rewrite Hkey. do 2 f_equal.
    destruct (needUpdate maxAliveTime key (lastActiveTime item) now1);
      destruct (needUpdate maxAliveTime key now1 now2); lia.
Qed.

End Expiry.

Section Rendered.
Context {Ele : Type}.
Implicit Types (store : list (CacheNode Ele)) (item : CacheNode Ele) (key : string).

Lemma append_cancel_l (s a b : string) : s +:+ a = s +:+ b → a = b.
Proof. induction s as [|c s IH]; cbn; [done|]. intros [= ?]. auto. Qed.

Lemma dash_inside (s d : string) : ¬ dash_free (s +:+ "-" +:+ d).
Proof. induction s as [|c s IH]; cbn; [by intros [? _]|]. by intros [_ ?]. Qed.

(** Splitting at the last [-]. *)
Lemma append_dash_inj (s1 s2 d1 d2 : string) :
  dash_free d1 → dash_free d2 →
  s1 +:+ "-" +:+ d1 = s2 +:+ "-" +:+ d2 → s1 = s2 ∧ d1 = d2.
Proof.
  intros Hd1 Hd2. revert s2.
  induction s1 as [|c s1 IH]; intros [|c' s2] Heq; cbn in Heq.
  - injection Heq as Heq. change (d1 = d2) in Heq. by subst.
  - injection Heq as Hc Heq. change (d1 = s2 +:+ "-" +:+ d2) in Heq.
    subst d1. by destruct (dash_inside s2 d2).
  - injection Heq as Hc Heq. change (s1 +:+ "-" +:+ d1 = d2) in Heq.
    subst d2. by destruct (dash_inside s1 d1).
  - injection Heq as Hc Heq. subst c'. by destruct (IH s2 Heq) as [-> ->].
Qed.

Lemma pretty_N_go_dash_free (x : N) (s : string) :
  dash_free s → dash_free (pretty_N_go x s).
Proof.
  revert s. induction (N.lt_wf_0 x) as [x _ IH]; intros s Hs.
  assert (x = 0 ∨ 0 < x)%N as [->|?] by lia.
  - by rewrite pretty_N_go_0.
  - rewrite pretty_N_go_step by done. apply IH.
    { by apply N.div_lt. }
    split; [|done]. unfold pretty_N_char. by repeat case_match.
Qed.

(** A natural number is printed with digits only. *)
Lemma pretty_nonneg_dash_free (z : Z) : (0 ≤ z)%Z → dash_free (pretty z).
Proof.
  intros Hz. destruct z as [|p|p]; [done| |lia].
  unfold pretty, pretty_Z, pretty, pretty_positive, pretty, pretty_N.
  rewrite decide_False by done. by apply pretty_N_go_dash_free.
Qed.

(** The React key tells entries apart as [cacheKey] and [renderCount]
    do. *)
Lemma provider_key_inj (a b : CacheNode Ele) :
  (0 ≤ renderCount a)%Z → (0 ≤ renderCount b)%Z →
  provider_key a = provider_key b → cacheKey a = cacheKey b ∧ renderCount a = renderCount b.
Proof.
  intros Ha Hb Heq. unfold provider_key in Heq.
  apply append_dash_inj in Heq as [Hk Hp]; [|by apply pretty_nonneg_dash_free..].
  split; [done|]. by apply (inj pretty).
Qed.

Lemma provider_key_same_cacheKey (a b : CacheNode Ele) :
  cacheKey a = cacheKey b →
  provider_key a = provider_key b ↔ renderCount a = renderCount b.
Proof.
  intros Hk. unfold provider_key. rewrite Hk. split.
  - intros Heq%append_cancel_l%append_cancel_l. by apply (inj pretty).
  - by intros ->.
Qed.

Lemma render_active activeCacheKey store :
  filter (λ r, active r = true) (render activeCacheKey store)
  = render activeCacheKey (filter (λ item, activeCacheKey = Some (cacheKey item)) store).
Proof.
  unfold render. induction store as [|item store IH]; [done|].
  rewrite fmap_cons. destruct (decide (activeCacheKey = Some (cacheKey item))) as [Heq|Hne].
  - rewrite !filter_cons_True; [|done|by apply bool_decide_eq_true]. by rewrite fmap_cons, IH.
  - rewrite !filter_cons_False; [done|done|]. simpl. by rewrite bool_decide_eq_false_2.
Qed.

Lemma activate_entry key children max maxAliveTime now store store' :
  activate key children max maxAliveTime now store = Normal store' →
  ∃ item, item ∈ store' ∧ cacheKey item = key ∧ ele item = children
          ∧ lastActiveTime item = now.
Proof.
  intros Hact. destruct (decide (key ∈ keys store)) as [Hin|Hout].
  - rewrite activate_seen in Hact by done. injection Hact as <-.
    apply list_elem_of_fmap in Hin as (old & -> & Hold).
    exists (update_item (cacheKey old) children maxAliveTime now old). split.
    + apply list_elem_of_fmap. eauto.
    + unfold update_item, has_key. by rewrite bool_decide_eq_true_2.
  - rewrite activate_unseen in Hact by done.
    destruct (evict max store) as [kept|]; [|done]. simpl in Hact. injection Hact as <-.
    exists (inserted key children now). split; [|done].
    apply elem_of_app. right. apply list_elem_of_singleton. done.
Qed.

(** X14.  With pairwise distinct cache keys at most one rendered entry is
    active, whatever the active key is; and after an activation that
    returns exactly one is: the entry of the activated key, showing the
    new children. *)
Theorem one_entry_is_active key children max maxAliveTime now store store' :
  NoDup (keys store) →
  activate key children max maxAliveTime now store = Normal store' →
  (∀ activeCacheKey,
     length (filter (λ r, active r = true) (render activeCacheKey store')) ≤ 1)
  ∧ ∃ r, filter (λ r, active r = true) (render (Some key) store') = [r]
         ∧ rendered_cacheKey r = key ∧ rendered_children r = children.
Proof.
  intros Hnd Hact.
  assert (Hnd' : NoDup (keys store')) by (by eapply activate_keeps_keys_unique).
  split.
  - intros [k|]; rewrite render_active; unfold render; rewrite length_fmap.
    + destruct (decide (k ∈ keys store')) as [Hin|Hout].
      * apply list_elem_of_fmap in Hin as (item & -> & Hin).
        rewrite (filter_unique_key _ (cacheKey item) item); [simpl; lia| |done..].
        intros other. split; congruence.
      * rewrite filter_everything; [simpl; lia|].
        intros item Hin [= ->]. apply Hout. apply list_elem_of_fmap. eauto.
    + rewrite filter_everything; [simpl; lia|]. by intros item _ ?.
  - destruct (activate_entry key children max maxAliveTime now store store' Hact)
      as (item & Hin & Hkey & Hele & _).
    rewrite render_active.
    rewrite (filter_unique_key _ key item); [|intros other; split; congruence|done..].
    eexists. split; [done|]. by split.
Qed.

(** X15.  When cache keys are pairwise distinct and no [renderCount] is
    negative, the React keys [`${cacheKey}-${renderCount}`] of the
    rendered entries are pairwise distinct, also when a cache key itself
    ends in a dash and digits. *)
Theorem react_keys_distinct activeCacheKey store :
  NoDup (keys store) → (∀ item, item ∈ store → (0 ≤ renderCount item)%Z) →
  NoDup (react_key <$> render activeCacheKey store).
Proof.
  intros Hnd Hrc. unfold render. rewrite <- list_fmap_compose.
  induction store as [|item store IH]; [apply NoDup_nil_2|].
  unfold keys in Hnd. simpl in Hnd. apply NoDup_cons in Hnd as [Hfirst Hnd].
  rewrite fmap_cons. apply NoDup_cons. split.
  - intros (other & Heq & Hin)%list_elem_of_fmap. simpl in Heq.
    apply provider_key_inj in Heq as [Hk _].
    + apply Hfirst. rewrite Hk. apply list_elem_of_fmap. eauto.
    + apply Hrc. left.
    + apply Hrc. by right.
  - apply IH; [done|]. intros other Hin. apply Hrc. by right.
Qed.

(** X16.  [refresh] forces the remount of its target and of nothing else:
    for a key that is not the empty string, the rendered entry of that key
    gets a different React key and keeps its children and its [active]
    flag, and every other rendered entry is the same as before. *)
Theorem refresh_remounts_only_target activeCacheKey activeCacheKey' key
    (st : KeepAliveState Ele) :
  key ≠ EmptyString →
  let before := render activeCacheKey' (cacheNodes st) in
  let after := render activeCacheKey' (cacheNodes (refresh activeCacheKey (Some key) st)) in
  length after = length before
  ∧ ∀ i r, before !! i = Some r →
      ∃ r', after !! i = Some r'
        ∧ if decide (rendered_cacheKey r = key)
          then react_key r' ≠ react_key r
               ∧ rendered_renderCount r' = (rendered_renderCount r + 1)%Z
               ∧ rendered_cacheKey r' = rendered_cacheKey r
               ∧ rendered_children r' = rendered_children r
               ∧ active r' = active r
          else r' = r.
Proof.
  intros Hkey before after. unfold before, after, render, refresh, setCacheNodes.
  cbn [cacheNodes]. unfold or_key. rewrite bool_decide_eq_false_2 by done.
  unfold refresh_updater. split; [by rewrite !length_fmap|].
  intros i r. rewrite !list_lookup_fmap.
  destruct (cacheNodes st !! i) as [item|]; [|done]. simpl. intros [= <-]. simpl.
  eexists. split; [done|]. case_decide as Hk.
  - rewrite bool_decide_eq_true_2 by congruence. simpl. split_and!; [|done..].
    intros Heq. apply provider_key_same_cacheKey in Heq; [|done]. simpl in Heq. lia.
  - rewrite bool_decide_eq_false_2; [done|congruence].
Qed.

(** X17.  A reactivation remounts exactly when the entry has expired: the
    React key of the rendered entry of the reactivated key changes if the
    expiration evaluation of its previous [lastActiveTime] against the
    clock is true, and is the same as before if it is false. *)
Theorem reactivation_remounts_iff_expired activeCacheKey key children max maxAliveTime now
    store :
  key ∈ keys store →
  ∃ store', activate key children max maxAliveTime now store = Normal store'
    ∧ ∀ i item r r', store !! i = Some item → cacheKey item = key →
        render activeCacheKey store !! i = Some r →
        render activeCacheKey store' !! i = Some r' →
        (react_key r' ≠ react_key r
         ↔ needUpdate maxAliveTime key (lastActiveTime item) now = true).
Proof.
  intros Hin. eexists. split; [by apply activate_seen|].
  intros i item r r' Hi Hk. unfold render. rewrite !list_lookup_fmap, Hi. simpl.
  intros [= <-] [= <-]. simpl.
  unfold update_item, has_key. rewrite bool_decide_eq_true_2 by done.
  rewrite provider_key_same_cacheKey by done. simpl.
  destruct (needUpdate maxAliveTime key (lastActiveTime item) now); split; (done || lia).
Qed.

End Rendered.

Section Snapshots.
Context {Ele : Type}.
Implicit Types (store : list (CacheNode Ele)) (item : CacheNode Ele) (key : string).
Implicit Types (h : HeapState Ele).

Lemma current_install arr h : current (install arr h) = arr.
Proof.
  unfold current, deref, install. simpl.
  by rewrite lookup_app_r, Nat.sub_diag by lia.
Qed.

Lemma deref_install arr h ref :
  ref < length (arrays h) → deref (install arr h) ref = deref h ref.
Proof. intros Href. unfold deref, install. simpl. by rewrite lookup_app_l. Qed.

(** A state whose array is not empty refers to an array that exists. *)
Lemma current_nonempty_valid h : current h ≠ [] → state_ref h < length (arrays h).
Proof.
  unfold current, deref. intros Hne.
  destruct (arrays h !! state_ref h) eqn:E; [by eapply lookup_lt_Some|done].
Qed.

Lemma current_splice_state start h :
  current h ≠ [] → current (splice_state start h) = splice1 start (current h).
Proof.
  intros Hne. apply current_nonempty_valid in Hne.
  unfold current at 1. unfold deref, splice_state. simpl.
  by rewrite list_lookup_insert_eq.
Qed.

(** The eviction step of [activate_heap], through [evict]. *)
Lemma heap_evict max h :
  (if (Z.of_nat (length (current h)) >? max)%Z then
     node ← reduce older (imap pair (current h));
     mret (splice_state (indexOf (current h) node) h)
   else mret h)
  = (kept ← evict max (current h);
     mret (if (Z.of_nat (length (current h)) >? max)%Z
           then {| arrays := <[state_ref h := kept]> (arrays h);
                   state_ref := state_ref h; pending := pending h |}
           else h)).
Proof.
  unfold evict. destruct (Z.of_nat (length (current h)) >? max)%Z; [|done].
  by destruct (reduce older (imap pair (current h))).
Qed.

(** Keeping track of which array object the state refers to changes
    nothing in what the store holds: every operation on the state with
    array identities, seen without them, is the operation on the plain
    store; so everything shown of the store holds of the array
    [getCacheNodes] returns after the operation. *)
Lemma arrays_agree_with_store h :
  (∀ key children max maxAliveTime now,
     match activate_heap key children max maxAliveTime now h with
     | Normal h' =>
         layoutEffect (Some key) children max maxAliveTime now (forget h)
         = Normal (forget h')
     | Throw e =>
         layoutEffect (Some key) children max maxAliveTime now (forget h) = Throw e
     end)
  ∧ (∀ activeCacheKey cacheKey,
       forget (refresh_heap activeCacheKey cacheKey h)
       = refresh activeCacheKey cacheKey (forget h))
  ∧ (∀ activeCacheKey cacheKey,
       forget (destroy_heap activeCacheKey cacheKey h)
       = destroy activeCacheKey cacheKey (forget h))
  ∧ forget (destroyAll_heap h) = destroyAll (forget h)
  ∧ (∀ activeCacheKey cacheKey,
       forget (destroyOther_heap activeCacheKey cacheKey h)
       = destroyOther activeCacheKey cacheKey (forget h))
  ∧ forget (runMacroTask_heap h) = runMacroTask (forget h).
Proof.
  split_and!.
  - intros key children max maxAliveTime now.
    unfold activate_heap, layoutEffect, safeStartTransition, activate.
    cbn [forget cacheNodes macroTasks].
    destruct (find (has_key key) (current h)) as [found|].
    + simpl. unfold forget. by rewrite current_install.
    + rewrite heap_evict.
      destruct (evict max (current h)) as [kept|e] eqn:Hev; [|done].
      simpl. unfold forget. rewrite !current_install. simpl.
      set (h'' := if (Z.of_nat (length (current h)) >? max)%Z
                  then {| arrays := <[state_ref h := kept]> (arrays h);
                          state_ref := state_ref h; pending := pending h |}
                  else h).
      assert (Hh : current h'' = kept ∧ pending h'' = pending h).
      { unfold h''.
        destruct (Z.gtb_spec (Z.of_nat (length (current h))) max) as [Hgt|Hle].
        - split; [|done]. assert (Hne : current h ≠ []).
          { intros Hnil. rewrite Hnil in Hev, Hgt. unfold evict in Hev. simpl in Hev, Hgt.
            destruct (Z.gtb_spec (Z.of_nat 0) max) as [?|Hle]; [done|simpl in Hle; lia]. }
          apply current_nonempty_valid in Hne.
          unfold current, deref. simpl. by rewrite list_lookup_insert_eq.
        - split; [|done]. rewrite evict_within in Hev by lia. by injection Hev as <-. }
      destruct Hh as [-> ->]. done.
  - intros activeCacheKey cacheKey. unfold forget, refresh_heap, refresh, setCacheNodes.
    by rewrite current_install.
  - done.
  - done.
  - done.
  - unfold runMacroTask_heap, runMacroTask, forget. simpl.
    destruct (pending h) as [|task rest] eqn:E; simpl; [by rewrite E|].
    by rewrite current_install.
Qed.

(** X18.  The array [getCacheNodes] has returned is not a frozen snapshot:
    an activation that evicts takes the evicted entry out of that very
    array, which then holds one entry less.  Nothing else changes an array
    once it has been the state: not [refresh], not a turn of the task
    queue, not an activation that updates or inserts without evicting. *)
Theorem snapshot_changed_by_eviction_only h ref :
  ref < length (arrays h) →
  (∀ activeCacheKey cacheKey,
     deref (refresh_heap activeCacheKey cacheKey h) ref = deref h ref)
  ∧ deref (runMacroTask_heap h) ref = deref h ref
  ∧ (∀ key children max maxAliveTime now h',
       activate_heap key children max maxAliveTime now h = Normal h' →
       if decide (ref = getCacheNodes_heap h ∧ (key ∉ keys (current h))
                  ∧ (max < Z.of_nat (length (current h)))%Z)
       then ∃ i evicted, current h !! i = Some evicted
              ∧ deref h' ref = Some (delete i (current h))
       else deref h' ref = deref h ref).
Proof.
  intros Href. split_and!.
  - intros activeCacheKey cacheKey. by apply deref_install.
  - unfold runMacroTask_heap. destruct (pending h) as [|task rest]; [done|].
    by rewrite deref_install.
  - intros key children max maxAliveTime now h' Hact. unfold activate_heap in Hact.
    destruct (find (has_key key) (current h)) as [found|] eqn:Hfind.
    + simpl in Hact. injection Hact as <-. rewrite deref_install by done.
      rewrite decide_False; [done|]. intros (_ & Hout & _).
      apply find_has_key_None in Hout. congruence.
    + apply find_has_key_None in Hfind.
      destruct (Z.gtb_spec (Z.of_nat (length (current h))) max) as [Hgt|Hle].
      * destruct (current h) as [|first rest] eqn:Hcur.
        { simpl in Hact. done. }
        rewrite <- Hcur in *.
        assert (Hne : current h ≠ []) by (rewrite Hcur; done).
        destruct (evict_overflow max (current h)) as (i & evicted & Hi & _ & _ & Hev);
          [lia|done|].
        unfold evict in Hev.
        destruct (Z.gtb_spec (Z.of_nat (length (current h))) max); [|lia].
        destruct (reduce older (imap pair (current h))) as [node|]; [|done].
        simpl in Hev, Hact. injection Hev as Hev. injection Hact as <-.
        rewrite deref_install by (simpl; by rewrite length_insert).
        unfold deref, splice_state. simpl. case_decide as Hcase.
        -- destruct Hcase as (-> & _ & _). exists i, evicted. split; [done|].
           unfold getCacheNodes_heap.
           rewrite list_lookup_insert_eq by (by apply current_nonempty_valid).
           by rewrite Hev.
        -- rewrite list_lookup_insert_ne; [done|].
           intros <-. apply Hcase. unfold getCacheNodes_heap. split_and!; [done|done|lia].
      * simpl in Hact. injection Hact as <-. rewrite deref_install by done.
        rewrite decide_False; [done|]. intros (_ & _ & ?). lia.
Qed.

End Snapshots.

Section Hook.
Context {Ele : Type}.
Implicit Types (store : list (CacheNode Ele)) (key : string).

(** X19.  With pairwise distinct keys in the store, one run of the
    activation updater calls [onBeforeActive] exactly once, with the
    activated key, whether the key is updated or inserted; when the prop
    is not a function nothing is called. *)
Theorem onBeforeActive_once_per_activation (isFn_onBeforeActive : bool) key store :
  NoDup (keys store) →
  onBeforeActive_calls isFn_onBeforeActive key store
  = if isFn_onBeforeActive then [key] else [].
Proof.
  intros Hnd. destruct isFn_onBeforeActive; [|done].
  by apply onBeforeActive_called_once.
Qed.

End Hook.

(** * The properties at concrete stores *)

(** The spec's first scenario: with [max = 2], ["a"], ["b"], ["c"] fill
    the store to three entries, and ["d"] evicts ["a"]. *)
Example scenario_abcd :
  activations 2 (AliveNumber 0) (take 3 abcd) []
  = Normal [entry "a" 10 0; entry "b" 20 0; entry "c" 30 0]
  ∧ activations 2 (AliveNumber 0) abcd []
    = Normal [entry "b" 20 0; entry "c" 30 0; entry "d" 40 0].
Proof. split; reflexivity. Qed.

(** The spec's second scenario: a five-second rule for ["x"]; the
    reactivation after six seconds remounts, the one half a second later
    does not. *)
Example scenario_ttl_rule :
  activations 2 (x_rule 5)
    [mkActivation "x" "<x/>" 0; mkActivation "x" "<x/>" 6000] []
  = Normal [entry "x" 6000 1]
  ∧ activations 2 (x_rule 5)
      [mkActivation "x" "<x/>" 0; mkActivation "x" "<x/>" 6000; mkActivation "x" "<x/>" 6500] []
    = Normal [entry "x" 6500 1].
Proof. split; reflexivity. Qed.

(** With a negative capacity the very first insertion reduces an empty
    array and throws. *)
Example negative_max_throws :
  activate "a" "<a/>" (-1) (AliveNumber 0) 10 [] = Throw TypeError.
Proof. reflexivity. Qed.

Lemma size_stabilizes_past_capacity_witness :
  NoDup (act_key <$> abcd)
  ∧ ∃ store, activations 2 (AliveNumber 0) (take 4 abcd) [] = Normal store
             ∧ length store = 3.
Proof.
  assert (Hnd : NoDup (act_key <$> abcd)) by by_evaluation.
  split; [exact Hnd|].
  exact (proj2 (size_stabilizes_past_capacity 2 (AliveNumber 0) abcd Hnd) 4 (le_n 4)).
Defined.

(** C2, as stated, fails on [tie_store] with [max = 2]: ["a"] and ["b"]
    share the smallest [lastActiveTime]; the first encountered is ["a"],
    the code evicts ["b"]. *)
Lemma eviction_first_oldest_counterexample :
  ("d" ∉ keys tie_store)
  ∧ (2 < Z.of_nat (length tie_store))%Z
  ∧ evict_first_oldest tie_store = [entry "b" 5 0; entry "c" 7 0]
  ∧ activate "d" "<d/>" 2 (AliveNumber 0) 9 tie_store
    = Normal [entry "a" 5 0; entry "c" 7 0; entry "d" 9 0]
  ∧ activate "d" "<d/>" 2 (AliveNumber 0) 9 tie_store
    ≠ Normal (evict_first_oldest tie_store ++ [inserted "d" "<d/>" 9%Z]).
Proof.
  split_and!; [by_evaluation|reflexivity|reflexivity|reflexivity|].
  vm_compute. discriminate.
Qed.

Lemma eviction_removes_last_oldest_witness :
  ("d" ∉ keys tie_store)
  ∧ (2 < Z.of_nat (length tie_store))%Z
  ∧ tie_store ≠ []
  ∧ ∃ i item, tie_store !! i = Some item
      ∧ (∀ j other, tie_store !! j = Some other → (lastActiveTime item ≤ lastActiveTime other)%Z)
      ∧ (∀ j other, tie_store !! j = Some other → i < j → (lastActiveTime item < lastActiveTime other)%Z)
      ∧ activate "d" "<d/>" 2 (AliveNumber 0) 9 tie_store
        = Normal (delete i tie_store ++ [inserted "d" "<d/>" 9%Z])
      ∧ length (delete i tie_store) + 1 = length tie_store.
Proof.
  assert (H1 : "d" ∉ keys tie_store) by by_evaluation.
  assert (H2 : (2 < Z.of_nat (length tie_store))%Z) by reflexivity.
  assert (H3 : tie_store ≠ []) by discriminate.
  split_and!; [exact H1|exact H2|exact H3|].
  exact (eviction_removes_last_oldest "d" "<d/>" 2 (AliveNumber 0) 9 tie_store H1 H2 H3).
Defined.


(** Under active key ["x"], with the empty string a key of the store:
    [refresh], [destroy] and [destroyOther] of the empty string change the
    entry of ["x"], not that of the empty string. *)
Example empty_key_scenario :
  cacheNodes (refresh (Some "x") (Some EmptyString) (mkState empty_key_store []))
  = [entry EmptyString 1 0; entry "x" 10 1; entry "y" 20 0]
  ∧ cacheNodes (runMacroTask (destroy (Some "x") (Some (KeyString EmptyString))
                                (mkState empty_key_store [])))
    = [entry EmptyString 1 0; entry "y" 20 0]
  ∧ cacheNodes (runMacroTask (destroyOther (Some "x") (Some EmptyString)
                                (mkState empty_key_store [])))
    = [entry "x" 10 0]
  ∧ cacheNodes (runMacroTask (destroy (Some "x") (Some (KeyArray []))
                                (mkState empty_key_store [])))
    = empty_key_store.
Proof. split_and!; reflexivity. Qed.

(** C7, as stated, fails at the empty key: no entry of [xy_store] has the
    empty string as its key, yet [destroyOther] of the empty string under
    active key ["x"] does not empty the store, it keeps the entry of
    ["x"]. *)
Lemma destroyOther_empty_key_counterexample :
  (EmptyString ∉ keys xy_store)
  ∧ cacheNodes (runMacroTask (destroyOther (Some "x") (Some EmptyString) (mkState xy_store [])))
    = [entry "x" 10 0]
  ∧ cacheNodes (runMacroTask (destroyOther (Some "x") (Some EmptyString) (mkState xy_store [])))
    ≠ [].
Proof. split_and!; [by_evaluation|reflexivity|vm_compute; discriminate]. Qed.

Lemma destroyOther_keeps_only_target_witness :
  "y" ≠ EmptyString
  ∧ ∀ item,
      item ∈ cacheNodes (runMacroTask (destroyOther (Some "x") (Some "y") (mkState xy_store [])))
      ↔ item ∈ xy_store ∧ cacheKey item = "y".
Proof.
  assert (H1 : "y" ≠ EmptyString) by discriminate.
  split; [exact H1|].
  exact (proj1 (proj2
    (destroyOther_keeps_only_target (Some "x") "y" (mkState xy_store []) H1))).
Defined.

(** C8, as stated, fails at the empty key: no entry of [xy_store] has the
    empty string as its key, yet [refresh] of the empty string under
    active key ["x"] changes the store, it adds one to the [renderCount]
    of ["x"]. *)
Lemma refresh_empty_key_counterexample :
  (EmptyString ∉ keys xy_store)
  ∧ cacheNodes (refresh (Some "x") (Some EmptyString) (mkState xy_store []))
    = [entry "x" 10 1; entry "y" 20 0]
  ∧ cacheNodes (refresh (Some "x") (Some EmptyString) (mkState xy_store [])) ≠ xy_store.
Proof. split_and!; [by_evaluation|reflexivity|vm_compute; discriminate]. Qed.

Lemma refresh_bumps_only_target_witness :
  "y" ≠ EmptyString
  ∧ length (cacheNodes (refresh (Some "x") (Some "y") (mkState xy_store []))) = 2
  ∧ macroTasks (refresh (Some "x") (Some "y") (mkState xy_store [])) = [].
Proof.
  assert (H1 : "y" ≠ EmptyString) by discriminate.
  split; [exact H1|].
  destruct (refresh_bumps_only_target (Some "x") "y" (mkState xy_store []) H1)
    as (Hlen & _ & _ & _ & Htasks).
  split; [exact Hlen|exact Htasks].
Defined.

Lemma key_uniqueness_invariant_witness :
  NoDup (keys xy_store)
  ∧ NoDup (keys (destroy_updater [Some "x"] xy_store))
  ∧ ∀ st, reachable xy_store st → NoDup (keys (cacheNodes st)).
Proof.
  assert (H1 : NoDup (keys xy_store)) by by_evaluation.
  split; [exact H1|].
  destruct (key_uniqueness_invariant xy_store H1) as (_ & _ & _ & Hdestroy & _ & _ & Hreach).
  split; [exact (Hdestroy [Some "x"])|exact Hreach].
Defined.

(** ** The further properties at concrete stores *)

Lemma activation_installs_key_witness :
  activate "d" "<d/>" 2 (AliveNumber 0) 9 tie_store
  = Normal [entry "a" 5 0; entry "c" 7 0; entry "d" 9 0]
  ∧ "d" ∈ keys [entry "a" 5 0; entry "c" 7 0; entry "d" 9 0].
Proof.
  assert (H1 : activate "d" "<d/>" 2 (AliveNumber 0) 9 tie_store
               = Normal [entry "a" 5 0; entry "c" 7 0; entry "d" 9 0]) by reflexivity.
  split; [exact H1|].
  exact (proj1 (activation_installs_key "d" "<d/>" 2 (AliveNumber 0) 9 tie_store _ H1)).
Defined.

Lemma reactivation_keeps_keys_witness :
  "a" ∈ keys tie_store
  ∧ ∃ store', activate "a" "<a2/>" 0 (AliveNumber 0) 9 tie_store = Normal store'
              ∧ keys store' = keys tie_store.
Proof.
  assert (H1 : "a" ∈ keys tie_store) by by_evaluation.
  split; [exact H1|].
  exact (reactivation_keeps_keys "a" "<a2/>" 0 (AliveNumber 0) 9 tie_store H1).
Defined.

Lemma size_never_exceeds_capacity_witness :
  rtc (step_under 2) (mkState tie_store [])
    (refresh (Some "a") None (mkState tie_store []))
  ∧ length (cacheNodes (refresh (Some "a") None (mkState tie_store []))) ≤ 3.
Proof.
  assert (H1 : rtc (step_under 2) (mkState tie_store [])
                 (refresh (Some "a") None (mkState tie_store [])))
    by (apply rtc_once, under_refresh).
  split; [exact H1|].
  exact (size_never_exceeds_capacity 2 (mkState tie_store []) _ H1 (Forall_nil_2 _)).
Defined.

Lemma increasing_clock_keeps_last_activations_witness :
  NoDup (act_key <$> abcd) ∧ clock_increases abcd
  ∧ activations 2 (AliveNumber 0) abcd [] = Normal (last_n 3 (entries_of abcd)).
Proof.
  assert (H1 : NoDup (act_key <$> abcd)) by by_evaluation.
  assert (H2 : clock_increases abcd).
  { intros [|[|[|[|i]]]] [|[|[|[|j]]]] a b Ha Hb Hij; simpl in Ha, Hb;
      try discriminate; try lia;
      injection Ha as <-; injection Hb as <-; simpl; lia. }
  split_and!; [exact H1|exact H2|].
  exact (increasing_clock_keeps_last_activations 2 (AliveNumber 0) abcd H1 H2).
Defined.

Lemma renderCount_changes_by_at_most_one_witness :
  reachable xy_store (mkState xy_store [])
  ∧ step (mkState xy_store []) (refresh (Some "x") None (mkState xy_store []))
  ∧ entry "x" 10 1 ∈ cacheNodes (refresh (Some "x") None (mkState xy_store []))
  ∧ (("x" ∉ keys xy_store) ∧ 1%Z = 0%Z
     ∨ ∃ item, item ∈ xy_store ∧ "x" = cacheKey item
         ∧ (1%Z = renderCount item ∨ 1%Z = (renderCount item + 1)%Z)).
Proof.
  assert (H1 : reachable xy_store (mkState xy_store [])) by apply reachable_init.
  assert (H2 : step (mkState xy_store []) (refresh (Some "x") None (mkState xy_store [])))
    by apply step_refresh.
  assert (H3 : entry "x" 10 1 ∈ cacheNodes (refresh (Some "x") None (mkState xy_store [])))
    by (vm_compute; left).
  split_and!; [exact H1|exact H2|exact H3|].
  exact (renderCount_changes_by_at_most_one xy_store _ _ (entry "x" 10 1) H1 H2 H3).
Defined.

Lemma renderCount_never_negative_witness :
  reachable [] (mkState [entry "a" 10 0] [])
  ∧ ∀ item, item ∈ [entry "a" 10 0] → (0 ≤ renderCount item)%Z.
Proof.
  assert (H1 : reachable [] (mkState [entry "a" 10 0] [])).
  { apply (reachable_step [] (mkState [] [])); [apply reachable_init|].
    by apply (step_activate _ (Some "a") "<a/>" 2 (AliveNumber 0) 10). }
  split; [exact H1|].
  exact (renderCount_never_negative (mkState [entry "a" 10 0] []) H1).
Defined.

Lemma destroy_sees_later_activation_witness :
  layoutEffect (Some "z") "<z/>" 2 (AliveNumber 0) 30
    (destroy (Some "x") (Some (KeyArray ["z"])) (mkState xy_store []))
  = Normal (mkState (xy_store ++ [entry "z" 30 0]) [destroy_updater [Some "z"]])
  ∧ ("z" ∉ keys (cacheNodes (runMacroTasks 1
            (mkState (xy_store ++ [entry "z" 30 0]) [destroy_updater [Some "z"]])))).
Proof.
  assert (H1 : layoutEffect (Some "z") "<z/>" 2 (AliveNumber 0) 30
                 (destroy (Some "x") (Some (KeyArray ["z"])) (mkState xy_store []))
               = Normal (mkState (xy_store ++ [entry "z" 30 0]) [destroy_updater [Some "z"]]))
    by reflexivity.
  split; [exact H1|].
  apply (destroy_sees_later_activation (Some "x") ["z"] (Some "z") "<z/>" 2 (AliveNumber 0) 30
           (mkState xy_store []) _ H1 "z").
  by_evaluation.
Defined.

Lemma destroy_one_key_witness :
  ((Some "y" = Some "y" ∧ "y" ≠ EmptyString) ∨ (Some "y" = None ∧ Some "x" = Some "y"))
  ∧ ∀ item,
      item ∈ cacheNodes (runMacroTask (destroy (Some "x") (Some (KeyString "y"))
                                         (mkState xy_store [])))
      ↔ item ∈ xy_store ∧ cacheKey item ≠ "y".
Proof.
  assert (H1 : (Some "y" = Some "y" ∧ "y" ≠ EmptyString)
               ∨ (Some "y" = None ∧ Some "x" = Some "y")).
  { left. split; [reflexivity|discriminate]. }
  split; [exact H1|].
  exact (proj1 (destroy_one_key (Some "x") (Some "y") "y" (mkState xy_store []) H1)).
Defined.

Lemma expired_stays_expired_witness :
  needUpdate (x_rule 5) "x" 0 6000 = true ∧ (6000 ≤ 7000)%Z ∧ (0 ≤ 0)%Z
  ∧ needUpdate (x_rule 5) "x" 0 7000 = true.
Proof.
  assert (H1 : needUpdate (x_rule 5) "x" 0 6000 = true) by reflexivity.
  assert (H2 : (6000 ≤ 7000)%Z) by lia.
  assert (H3 : (0 ≤ 0)%Z) by lia.
  split_and!; [exact H1|exact H2|exact H3|].
  exact (expired_stays_expired (x_rule 5) "x" 0 0 6000 7000 H1 H2 H3).
Defined.

Lemma expiry_clock_restarts_witness :
  "x" ∈ keys xy_store
  ∧ ∃ store'',
      activations 10 (x_rule 5)
        [mkActivation "x" "<x1/>" 6000; mkActivation "x" "<x2/>" 6500] xy_store
      = Normal store''
      ∧ ∀ i item, xy_store !! i = Some item → cacheKey item = "x" →
          store'' !! i = Some
            {| cacheKey := "x"; ele := "<x2/>"; lastActiveTime := 6500;
               renderCount :=
                 (renderCount item
                  + (if needUpdate (x_rule 5) "x" (lastActiveTime item) 6000 then 1 else 0)
                  + (if needUpdate (x_rule 5) "x" 6000 6500 then 1 else 0))%Z |}.
Proof.
  assert (H1 : "x" ∈ keys xy_store) by by_evaluation.
  split; [exact H1|].
  exact (expiry_clock_restarts "x" "<x1/>" "<x2/>" 10 (x_rule 5) 6000 6500 xy_store H1).
Defined.

Lemma one_entry_is_active_witness :
  NoDup (keys xy_store)
  ∧ activate "y" "<y2/>" 10 (AliveNumber 0) 30 xy_store
    = Normal [entry "x" 10 0; mkCacheNode "y" "<y2/>" 30 0]
  ∧ ∃ r, filter (λ r, active r = true)
           (render (Some "y") [entry "x" 10 0; mkCacheNode "y" "<y2/>" 30 0]) = [r]
         ∧ rendered_cacheKey r = "y" ∧ rendered_children r = "<y2/>".
Proof.
  assert (H1 : NoDup (keys xy_store)) by by_evaluation.
  assert (H2 : activate "y" "<y2/>" 10 (AliveNumber 0) 30 xy_store
               = Normal [entry "x" 10 0; mkCacheNode "y" "<y2/>" 30 0]) by reflexivity.
  split_and!; [exact H1|exact H2|].
  exact (proj2 (one_entry_is_active "y" "<y2/>" 10 (AliveNumber 0) 30 xy_store _ H1 H2)).
Defined.

Lemma react_keys_distinct_witness :
  NoDup (keys xy_store) ∧ (∀ item, item ∈ xy_store → (0 ≤ renderCount item)%Z)
  ∧ NoDup (react_key <$> render (Some "x") xy_store).
Proof.
  assert (H1 : NoDup (keys xy_store)) by by_evaluation.
  assert (H2 : ∀ item, item ∈ xy_store → (0 ≤ renderCount item)%Z).
  { apply Forall_forall. by_evaluation. }
  split_and!; [exact H1|exact H2|].
  exact (react_keys_distinct (Some "x") xy_store H1 H2).
Defined.

Lemma refresh_remounts_only_target_witness :
  "y" ≠ EmptyString
  ∧ length (render (Some "x") (cacheNodes (refresh (Some "x") (Some "y") (mkState xy_store []))))
    = length (render (Some "x") xy_store).
Proof.
  assert (H1 : "y" ≠ EmptyString) by discriminate.
  split; [exact H1|].
  exact (proj1 (refresh_remounts_only_target (Some "x") (Some "x") "y"
                  (mkState xy_store []) H1)).
Defined.

Lemma reactivation_remounts_iff_expired_witness :
  "x" ∈ keys xy_store
  ∧ ∃ store', activate "x" "<x2/>" 10 (x_rule 5) 6000 xy_store = Normal store'
      ∧ ∀ i item r r', xy_store !! i = Some item → cacheKey item = "x" →
          render (Some "x") xy_store !! i = Some r →
          render (Some "x") store' !! i = Some r' →
          (react_key r' ≠ react_key r
           ↔ needUpdate (x_rule 5) "x" (lastActiveTime item) 6000 = true).
Proof.
  assert (H1 : "x" ∈ keys xy_store) by by_evaluation.
  split; [exact H1|].
  exact (reactivation_remounts_iff_expired (Some "x") "x" "<x2/>" 10 (x_rule 5) 6000
           xy_store H1).
Defined.

Lemma snapshot_changed_by_eviction_only_witness :
  0 < length (arrays (mkHeap [tie_store] 0 []))
  ∧ deref (refresh_heap (Some "a") None (mkHeap [tie_store] 0 [])) 0 = Some tie_store.
Proof.
  assert (H1 : 0 < length (arrays (mkHeap [tie_store] 0 []))) by (simpl; lia).
  split; [exact H1|].
  exact (proj1 (snapshot_changed_by_eviction_only (mkHeap [tie_store] 0 []) 0 H1)
           (Some "a") None).
Defined.

(** The array read through a reference taken before an evicting
    activation: ["b"] has left it. *)
Example snapshot_after_eviction :
  (h' ← activate_heap "d" "<d/>" 2 (AliveNumber 0) 9 (mkHeap [tie_store] 0 []);
   mret (deref h' 0, deref h' (getCacheNodes_heap h')))
  = Normal (Some [entry "a" 5 0; entry "c" 7 0],
            Some [entry "a" 5 0; entry "c" 7 0; entry "d" 9 0]).
Proof. reflexivity. Qed.

Lemma onBeforeActive_once_per_activation_witness :
  NoDup (keys xy_store) ∧ onBeforeActive_calls true "x" xy_store = ["x"].
Proof.
  assert (H1 : NoDup (keys xy_store)) by by_evaluation.
  split; [exact H1|].
  exact (onBeforeActive_once_per_activation true "x" xy_store H1).
Defined.
